(** * BetterInput: the raw-keystroke line editor of [input.py]

    A shallow embedding of [input.py]: the key decoder [_getKey], the
    terminal primitives [_moveCursorRight] and [_resetLine], the clamp
    [_bound], the single-use reader [_SingleLineReader] with its [read]
    loop, and the owner of the shared history, [Input].

    Python text is a sequence of characters, modelled as [list ascii]
    (the editor works on single code units).  Python integers are [Z];
    indexing and slicing follow Python for every integer, negative ones
    included, so that the bounds the code maintains are theorems and not
    consequences of the types.  The terminal is a pair of streams: the
    characters still to come on standard input and the characters written
    so far to standard output. *)

From Stdlib Require Import ZArith Lia Ascii DecimalZ.
From Stdlib Require DecimalString HexadecimalString.
From stdpp Require Import base list strings.

Open Scope Z_scope.

(** ** Python built-ins used by the source *)

Definition str := list ascii.

Definition lit (x : string) : str := String.list_ascii_of_string x.
Arguments lit x%_string.

(** [len(x)] as a Python integer. *)
Definition len {A} (l : list A) : Z := Z.of_nat (length l).

(** [s[:i]]: a negative bound counts from the end, and bounds are clipped. *)
Definition slice_to {A} (l : list A) (i : Z) : list A :=
  if i <? 0 then take (Z.to_nat (len l + i)) l else take (Z.to_nat i) l.

(** [s[i:]]. *)
Definition slice_from {A} (l : list A) (i : Z) : list A :=
  if i <? 0 then drop (Z.to_nat (len l + i)) l else drop (Z.to_nat i) l.

(** [l[i]]: a negative index counts from the end; [None] is [IndexError]. *)
Definition getitem {A} (l : list A) (i : Z) : option A :=
  if i <? 0
  then (if len l + i <? 0 then None else l !! Z.to_nat (len l + i))
  else l !! Z.to_nat i.

(** [l[i] = v], [None] being [IndexError]. *)
Definition setitem {A} (l : list A) (i : Z) (v : A) : option (list A) :=
  let j := if i <? 0 then len l + i else i in
  if (0 <=? j) && (j <? len l) then Some (<[Z.to_nat j := v]> l) else None.

(** [str(n)] for an integer, as an f-string prints it. *)
Definition str_of_int (n : Z) : str :=
  lit (DecimalString.NilZero.string_of_int (Z.to_int n)).

(** [hex(ord(c))]. *)
Definition hex_of_ord (c : ascii) : str :=
  lit "0x" ++ lit (HexadecimalString.NilZero.string_of_uint (N.to_hex_uint (N_of_ascii c))).

(** [sep.join(parts)]. *)
Fixpoint join (sep : str) (parts : list str) : str :=
  match parts with
  | [] => []
  | [p] => p
  | p :: ps => p ++ sep ++ join sep ps
  end.

(** ** Regular expressions, as far as [ESCAPE_SEQ] needs them *)

Module Regex.

Inductive t : Type :=
| Void
| Eps
| Range (lo hi : ascii)
| Alt (r1 r2 : t)
| Seq (r1 r2 : t)
| Star (r : t).

Definition Chr (c : ascii) : t := Range c c.

Definition in_range (lo hi c : ascii) : bool :=
  ((N_of_ascii lo <=? N_of_ascii c) && (N_of_ascii c <=? N_of_ascii hi))%N.

Fixpoint nullable (r : t) : bool :=
  match r with
  | Void => false
  | Eps => true
  | Range _ _ => false
  | Alt r1 r2 => nullable r1 || nullable r2
  | Seq r1 r2 => nullable r1 && nullable r2
  | Star _ => true
  end.

(** Brzozowski derivative. *)
Fixpoint deriv (c : ascii) (r : t) : t :=
  match r with
  | Void => Void
  | Eps => Void
  | Range lo hi => if in_range lo hi c then Eps else Void
  | Alt r1 r2 => Alt (deriv c r1) (deriv c r2)
  | Seq r1 r2 =>
      if nullable r1 then Alt (Seq (deriv c r1) r2) (deriv c r2)
      else Seq (deriv c r1) r2
  | Star r1 => Seq (deriv c r1) (Star r1)
  end.

Definition derivs (s : str) (r : t) : t := fold_left (fun r c => deriv c r) s r.

(** The whole of [s] is in the language of [r]. *)
Definition fullmatch (r : t) (s : str) : bool := nullable (derivs s r).

(** No string at all is in the language of [r]. *)
Fixpoint dead (r : t) : bool :=
  match r with
  | Void => true
  | Eps => false
  | Range lo hi => (N_of_ascii hi <? N_of_ascii lo)%N
  | Alt r1 r2 => dead r1 && dead r2
  | Seq r1 r2 => dead r1 || dead r2
  | Star _ => false
  end.

End Regex.

(** ** Module constants *)

Definition ESCAPE : str := ["027"%char].

Definition LF : ascii := "010"%char.

(** [ESCAPE_SEQ = re.compile(r"^\x1B(?:[@-Z\\-_]|\[[0-?]*[ -/]*[@-~])$")].
    Without [re.MULTILINE], a final [$] matches at the end of the text and
    also just before a newline that ends the text. *)
Definition ESCAPE_SEQ : Regex.t :=
  Regex.Seq
    (Regex.Seq (Regex.Chr "027")
       (Regex.Alt
          (Regex.Alt (Regex.Range "@" "Z") (Regex.Range "\" "_"))
          (Regex.Seq (Regex.Chr "[")
             (Regex.Seq (Regex.Star (Regex.Range "0" "?"))
                (Regex.Seq (Regex.Star (Regex.Range " " "/")) (Regex.Range "@" "~"))))))
    (Regex.Alt Regex.Eps (Regex.Chr LF)).

(** [ESCAPE_SEQ.match(k)], as a truth value. *)
Definition ESCAPE_SEQ_match (k : str) : bool := Regex.fullmatch ESCAPE_SEQ k.

Definition CLEAR_LINE : str := "027"%char :: lit "[K".
Definition DELETE : str := "027"%char :: lit "[3~".

Definition UP : str := "027"%char :: lit "[A".
Definition DOWN : str := "027"%char :: lit "[B".
Definition RIGHT : str := "027"%char :: lit "[C".
Definition LEFT : str := "027"%char :: lit "[D".
Definition _arrowKeys : list str := [UP; DOWN; RIGHT; LEFT].

Definition BACKSPACE : str := ["127"%char].
Definition INTERRUPT : str := ["003"%char].
Definition EOF : str := ["004"%char].

Definition CR : str := ["013"%char].

(** ** The terminal, the reader object and the effects of the program *)

(** The fields of [_SingleLineReader]. *)
Record SingleLineReader : Type := mkReader {
  lines : list str;
  line : str;
  lineIdx : Z;
  charIdx : Z;
  used : bool;
  debug : bool;
  prompt : str
}.

(** The reader in use ([self]) and the two streams of the terminal.
    [stdin] holds the characters the terminal will still deliver, [stdout]
    everything printed so far.  Raw mode is switched on and off around
    every single read in [_getChar]; it has no effect on the streams and is
    left out. *)
Record state : Type := mkState {
  self : SingleLineReader;
  stdin : str;
  stdout : str
}.

Inductive exn : Type :=
| KeyboardInterrupt
| EOFError
| IndexError
| Exception (msg : str).

(** What a call comes to: it returns, it raises, it waits for a character
    the terminal has not delivered ([Blocked]), or the bound on the number
    of loop iterations of this model is used up ([OutOfGas]; the bounds are
    chosen so that this never happens, see [_getKey_inv] for the decoder
    and [read_gas] for the loop of a reader built by [init]). *)
Inductive result (A : Type) : Type :=
| Return (a : A)
| Raise (e : exn)
| Blocked
| OutOfGas.
Arguments Return {A} a.
Arguments Raise {A} e.
Arguments Blocked {A}.
Arguments OutOfGas {A}.

Definition M (A : Type) : Type := state -> result A * state.

Definition ret {A} (a : A) : M A := fun st => (Return a, st).

Definition bind {A B} (m : M A) (k : A -> M B) : M B :=
  fun st =>
    match m st with
    | (Return a, st') => k a st'
    | (Raise e, st') => (Raise e, st')
    | (Blocked, st') => (Blocked, st')
    | (OutOfGas, st') => (OutOfGas, st')
    end.

Declare Scope py_scope.
Delimit Scope py_scope with py.
Notation "x <- m ;; k" := (bind m (fun x => k))
  (at level 100, m at next level, k at level 200, right associativity) : py_scope.
Notation "m ;; k" := (bind m (fun _ => k))
  (at level 100, k at level 200, right associativity) : py_scope.
Open Scope py_scope.

Definition raise {A} (e : exn) : M A := fun st => (Raise e, st).

Definition getSelf : M SingleLineReader := fun st => (Return (self st), st).

Definition modify (f : SingleLineReader -> SingleLineReader) : M unit :=
  fun st => (Return tt, mkState (f (self st)) (stdin st) (stdout st)).

Definition set_lines (v : list str) (r : SingleLineReader) : SingleLineReader :=
  mkReader v (line r) (lineIdx r) (charIdx r) (used r) (debug r) (prompt r).
Definition set_line (v : str) (r : SingleLineReader) : SingleLineReader :=
  mkReader (lines r) v (lineIdx r) (charIdx r) (used r) (debug r) (prompt r).
Definition set_lineIdx (v : Z) (r : SingleLineReader) : SingleLineReader :=
  mkReader (lines r) (line r) v (charIdx r) (used r) (debug r) (prompt r).
Definition set_charIdx (v : Z) (r : SingleLineReader) : SingleLineReader :=
  mkReader (lines r) (line r) (lineIdx r) v (used r) (debug r) (prompt r).
Definition set_used (v : bool) (r : SingleLineReader) : SingleLineReader :=
  mkReader (lines r) (line r) (lineIdx r) (charIdx r) v (debug r) (prompt r).

(** [print(s, end="")]. *)
Definition print (s : str) : M unit :=
  fun st => (Return tt, mkState (self st) (stdin st) (stdout st ++ s)).

(** [print(s)]. *)
Definition println (s : str) : M unit := print (s ++ [LF]).

(** ** Module-level functions *)

(** [_getChar(nchars)]: [sys.stdin.read(nchars)] in raw mode waits until
    [nchars] characters are there. *)
Definition _getChar (nchars : nat) : M str :=
  fun st =>
    if (length (stdin st) <? nchars)%nat then (Blocked, st)
    else (Return (take nchars (stdin st)),
          mkState (self st) (drop nchars (stdin st)) (stdout st)).

(** The loop of [_getKey]: [while not ESCAPE_SEQ.match(k): k += _getChar()]. *)
Fixpoint _getKey_loop (gas : nat) (k : str) : M str :=
  if ESCAPE_SEQ_match k then ret k
  else match gas with
       | O => fun st => (OutOfGas, st)
       | S gas' => c <- _getChar 1 ;; _getKey_loop gas' (k ++ c)
       end.

Definition _getKey : M str :=
  k <- _getChar 1 ;;
  if decide (k = ESCAPE)
  then fun st => _getKey_loop (S (length (stdin st))) k st
  else ret k.

Definition _printHex (s : str) : M unit :=
  println (join (lit " ") (map hex_of_ord s)).

Definition _moveCursorRight (distRight : Z) : M unit :=
  if distRight >? 0 then print ("027"%char :: lit "[" ++ str_of_int distRight ++ lit "C")
  else if distRight <? 0 then print ("027"%char :: lit "[" ++ str_of_int (- distRight) ++ lit "D")
  else ret tt.

Definition _resetLine (line : str) : M unit :=
  print (CR ++ line ++ CLEAR_LINE).

Definition _bound (val : Z) (lowerBound upperBound : option Z) : Z :=
  let val := match lowerBound with Some lo => Z.max val lo | None => val end in
  let val := match upperBound with Some hi => Z.min val hi | None => val end in
  val.

(** ** [_SingleLineReader] *)

(** [__init__]: the reader keeps the caller's list ([self.lines = pastLines])
    and appends the new, empty line to it. *)
Definition init (pastLines : list str) (prompt : str) (debug : bool) : SingleLineReader :=
  let lines := pastLines ++ [[]] in
  mkReader lines [] (len lines - 1) 0 false debug prompt.

Definition _use : M unit :=
  s <- getSelf ;;
  if used s then raise (Exception (lit "using line reader multiple times"))
  else modify (set_used true).

Definition _resetLineAndCursor : M unit :=
  s <- getSelf ;;
  _resetLine (prompt s ++ line s) ;;
  _moveCursorRight (charIdx s - len (line s)).

Definition moveLineDown (distDown : Z) : M unit :=
  s <- getSelf ;;
  modify (set_lineIdx (_bound (lineIdx s + distDown) (Some 0) (Some (len (lines s) - 1)))) ;;
  s <- getSelf ;;
  match getitem (lines s) (lineIdx s) with
  | None => raise IndexError
  | Some l =>
      modify (set_line l) ;;
      modify (set_charIdx (len l)) ;;
      _resetLineAndCursor
  end.

Definition moveCharRight (distRight : Z) : M unit :=
  s <- getSelf ;;
  let lastIdx := charIdx s in
  modify (set_charIdx (_bound (charIdx s + distRight) (Some 0) (Some (len (line s))))) ;;
  s <- getSelf ;;
  _moveCursorRight (charIdx s - lastIdx).

Definition doBackspace : M unit :=
  s <- getSelf ;;
  if charIdx s >? 0 then
    modify (set_line (slice_to (line s) (charIdx s - 1) ++ slice_from (line s) (charIdx s))) ;;
    modify (set_charIdx (charIdx s - 1)) ;;
    _resetLineAndCursor
  else ret tt.

Definition doDelete : M unit :=
  s <- getSelf ;;
  if charIdx s <? len (line s) then
    modify (set_line (slice_to (line s) (charIdx s) ++ slice_from (line s) (charIdx s + 1))) ;;
    _resetLineAndCursor
  else ret tt.

Definition insertChar (k : str) : M unit :=
  s <- getSelf ;;
  modify (set_line (slice_to (line s) (charIdx s) ++ k ++ slice_from (line s) (charIdx s))) ;;
  modify (set_charIdx (charIdx s + 1)) ;;
  _resetLineAndCursor.

(** [self.lines[-1] = self.line]. *)
Definition store_line : M unit :=
  s <- getSelf ;;
  match setitem (lines s) (-1) (line s) with
  | None => raise IndexError
  | Some ls => modify (set_lines ls)
  end.

(** The body of the [while] loop of [read], for the key [k]. *)
Definition read_body (k : str) : M unit :=
  s <- getSelf ;;
  (if debug s then print (CR ++ CLEAR_LINE) ;; _printHex k else ret tt) ;;
  if decide (k ∈ _arrowKeys) then
    if decide (k = UP) then moveLineDown (-1)
    else if decide (k = DOWN) then moveLineDown 1
    else if decide (k = LEFT) then moveCharRight (-1)
    else if decide (k = RIGHT) then moveCharRight 1
    else ret tt
  else
    (if decide (k = BACKSPACE) then doBackspace
     else if decide (k = DELETE) then doDelete
     else if decide (k = INTERRUPT) then raise KeyboardInterrupt
     else if decide (k = EOF) then raise EOFError
     else match getitem k 0 with
          | None => raise IndexError
          | Some c =>
              if decide ([c] = ESCAPE)
              then raise (Exception (lit "unknown ANSI escape: " ++ join (lit " ") (map hex_of_ord k)))
              else insertChar k
          end) ;;
    store_line.

(** [while (k := _getKey()) != "\r": ...], then the three statements that
    follow the loop. *)
Fixpoint read_loop (gas : nat) : M str :=
  match gas with
  | O => fun st => (OutOfGas, st)
  | S gas' =>
      k <- _getKey ;;
      if decide (k = CR) then
        store_line ;;
        println [] ;;
        s <- getSelf ;;
        ret (line s)
      else
        read_body k ;;
        read_loop gas'
  end.

(** Every key takes at least one character of [stdin], so the loop runs at
    most as often as there are characters. *)
Definition read : M str :=
  _use ;;
  s <- getSelf ;;
  print (prompt s) ;;
  fun st => read_loop (S (length (stdin st))) st.

(** ** [Input] *)

Record Input : Type := mkInput {
  Input_lines : list str;
  Input_debug : bool
}.

(** The two streams of the terminal. *)
Record tty : Type := mkTty {
  tty_in : str;
  tty_out : str
}.

(** [Input.getLine(prompt)].  The reader works on the very list that
    [Input] owns, so whatever the session did to [self.lines] is what
    [Input.lines] holds afterwards, however the session ended.  Besides the
    result, the [Input] and the terminal, the reader object as the session
    left it is given back. *)
Definition getLine (i : Input) (prompt : str) (t : tty)
  : result str * Input * tty * SingleLineReader :=
  let r := init (Input_lines i) prompt (Input_debug i) in
  let '(res, st) := read (mkState r (tty_in t) (tty_out t)) in
  (res, mkInput (lines (self st)) (Input_debug i), mkTty (stdin st) (stdout st), self st).

(** * Examples: the model run on concrete input *)

Definition run (pastLines : list str) (input : str) : result str * list str :=
  let '(res, i, _, _) := getLine (mkInput pastLines false) (lit "> ") (mkTty input []) in
  (res, Input_lines i).

Example run_abc : run [] (lit "abc" ++ CR) = (Return (lit "abc"), [lit "abc"]).
Proof. vm_compute. reflexivity. Qed.

Example run_backspace :
  run [] (lit "abc" ++ BACKSPACE ++ BACKSPACE ++ CR) = (Return (lit "a"), [lit "a"]).
Proof. vm_compute. reflexivity. Qed.

Example run_up : run [lit "foo"] (UP ++ CR) = (Return (lit "foo"), [lit "foo"; lit "foo"]).
Proof. vm_compute. reflexivity. Qed.

Example run_left_insert :
  run [] (lit "ac" ++ LEFT ++ lit "b" ++ CR) = (Return (lit "abc"), [lit "abc"]).
Proof. vm_compute. reflexivity. Qed.

Example run_delete :
  run [] (lit "abc" ++ LEFT ++ LEFT ++ DELETE ++ CR) = (Return (lit "ac"), [lit "ac"]).
Proof. vm_compute. reflexivity. Qed.

Example run_interrupt : run [] (lit "ab" ++ INTERRUPT ++ CR) = (Raise KeyboardInterrupt, [lit "ab"]).
Proof. vm_compute. reflexivity. Qed.

Example run_output :
  getLine (mkInput [] false) (lit "> ") (mkTty (lit "a" ++ LEFT ++ CR) [])
  = (Return (lit "a"), mkInput [lit "a"] false,
     mkTty [] (lit "> " ++ CR ++ lit "> a" ++ CLEAR_LINE ++ "027"%char :: lit "[1D" ++ [LF]),
     mkReader [lit "a"] (lit "a") 0 0 true false (lit "> ")).
Proof. vm_compute. reflexivity. Qed.

(** * Properties *)

(** ** The decoder *)

Lemma dead_not_nullable r : Regex.dead r = true -> Regex.nullable r = false.
Proof.
  induction r as [| |lo hi|r1 IH1 r2 IH2|r1 IH1 r2 IH2|r IH]; simpl; try done.
  - intros [H1 H2]%andb_true_iff. by rewrite IH1, IH2.
  - intros [H|H]%orb_true_iff.
    + by rewrite IH1.
    + rewrite IH2 by done. apply andb_false_r.
Qed.

Lemma dead_deriv c r : Regex.dead r = true -> Regex.dead (Regex.deriv c r) = true.
Proof.
  induction r as [| |lo hi|r1 IH1 r2 IH2|r1 IH1 r2 IH2|r IH]; simpl; try done.
  - intros H%N.ltb_lt. unfold Regex.in_range.
    destruct (N.leb_spec (N_of_ascii lo) (N_of_ascii c));
      destruct (N.leb_spec (N_of_ascii c) (N_of_ascii hi)); simpl; try done.
    lia.
  - intros [H1 H2]%andb_true_iff. by rewrite IH1, IH2.
  - intros [H|H]%orb_true_iff.
    + rewrite (dead_not_nullable r1 H). simpl. by rewrite IH1.
    + destruct (Regex.nullable r1); simpl; rewrite ?IH2, H by done;
        by rewrite ?orb_true_r.
Qed.

Lemma dead_derivs s r : Regex.dead r = true -> Regex.dead (Regex.derivs s r) = true.
Proof.
  revert r. induction s as [|c s IH]; intros r H; simpl; [done|].
  apply IH, dead_deriv, H.
Qed.

Lemma derivs_app a b r : Regex.derivs (a ++ b) r = Regex.derivs b (Regex.derivs a r).
Proof. apply fold_left_app. Qed.

(** Once the characters read so far can no longer be extended to an escape
    sequence, no further character makes [ESCAPE_SEQ] match. *)
Lemma dead_prefix_never_matches k s :
  Regex.dead (Regex.derivs k ESCAPE_SEQ) = true -> ESCAPE_SEQ_match (k ++ s) = false.
Proof.
  intros H. unfold ESCAPE_SEQ_match, Regex.fullmatch. rewrite derivs_app.
  apply dead_not_nullable, dead_derivs, H.
Qed.

(** [ESCAPE_SEQ] matches text that starts with the escape character only. *)
Lemma ESCAPE_SEQ_match_head c s : ESCAPE_SEQ_match (c :: s) = true -> [c] = ESCAPE.
Proof.
  intros H. destruct (decide (c = "027"%char)) as [->|Hc]; [done|].
  change (c :: s) with ([c] ++ s) in H.
  rewrite dead_prefix_never_matches in H; [done|].
  simpl. unfold Regex.in_range.
  destruct (N.leb_spec (N_of_ascii "027") (N_of_ascii c));
    destruct (N.leb_spec (N_of_ascii c) (N_of_ascii "027")); simpl; try done.
  destruct Hc. rewrite <- (ascii_N_embedding c), <- (ascii_N_embedding "027"). f_equal. lia.
Qed.

Definition with_stdin (v : str) (st : state) : state := mkState (self st) v (stdout st).
Definition with_stdout (v : str) (st : state) : state := mkState (self st) (stdin st) v.

Lemma _getChar_cons c rest st :
  stdin st = c :: rest -> _getChar 1 st = (Return [c], with_stdin rest st).
Proof. intros H. unfold _getChar, with_stdin. rewrite H. simpl. by rewrite drop_0. Qed.

Lemma _getChar_nil st : stdin st = [] -> _getChar 1 st = (Blocked, st).
Proof. intros H. unfold _getChar. by rewrite H. Qed.

(** What the loop of [_getKey] can come to: it takes the characters [extra]
    off [stdin] and returns them after [k], or it is still waiting when
    [stdin] is used up; it touches nothing else, and the gas suffices. *)
Lemma _getKey_loop_inv gas k st :
  (length (stdin st) < gas)%nat ->
  (exists extra rest,
      stdin st = extra ++ rest /\
      ESCAPE_SEQ_match (k ++ extra) = true /\
      _getKey_loop gas k st = (Return (k ++ extra), with_stdin rest st)) \/
  ((forall extra rest, stdin st = extra ++ rest -> ESCAPE_SEQ_match (k ++ extra) = false) /\
   _getKey_loop gas k st = (Blocked, with_stdin [] st)).
Proof.
  revert k st. induction gas as [|gas IH]; intros k st Hgas; [lia|].
  simpl. destruct (ESCAPE_SEQ_match k) eqn:Hk.
  - left. exists [], (stdin st). rewrite app_nil_r. repeat split; [done|].
    unfold ret, with_stdin. by destruct st.
  - destruct (stdin st) as [|c rest] eqn:Hin.
    + right. split.
      * intros extra rest' Heq. symmetry in Heq. apply app_eq_nil in Heq as [-> _].
        by rewrite app_nil_r.
      * unfold bind. rewrite _getChar_nil by done. unfold with_stdin.
        destruct st; simpl in *; by subst.
    + unfold bind. rewrite (_getChar_cons c rest) by done.
      destruct (IH (k ++ [c]) (with_stdin rest st)) as
        [(extra & rest' & Heq & Hm & Hrun)|[Hno Hrun]]; [simpl in *; lia| |].
      * left. exists (c :: extra), rest'. simpl in Heq. subst rest.
        rewrite <- app_assoc in Hm, Hrun. simpl in Hm, Hrun. by repeat split.
      * right. split; [|done].
        intros [|c' extra] rest' Heq; [by rewrite app_nil_r|].
        simpl in Heq. injection Heq as <- ->.
        specialize (Hno extra rest' eq_refl). by rewrite <- app_assoc in Hno.
Qed.

(** [_getKey] returns a key, which is never empty and is what it took off
    [stdin], or waits for input; it leaves the reader and [stdout] alone. *)
Lemma _getKey_inv st :
  (exists k rest, k <> [] /\ stdin st = k ++ rest /\
                  _getKey st = (Return k, with_stdin rest st)) \/
  (exists rest, _getKey st = (Blocked, with_stdin rest st)).
Proof.
  unfold _getKey, bind. destruct (stdin st) as [|c rest] eqn:Hin.
  - right. exists []. rewrite _getChar_nil by done. unfold with_stdin.
    destruct st; simpl in *; by subst.
  - rewrite (_getChar_cons c rest) by done. cbv beta iota.
    destruct (decide _) as [Hc|Hc].
    + change (stdin (with_stdin rest st)) with rest.
      destruct (_getKey_loop_inv (S (length rest)) [c] (with_stdin rest st)) as
        [(extra & rest' & Heq & Hm & Hrun)|[Hno Hrun]]; [simpl; lia| |].
      * left. exists ([c] ++ extra), rest'. change (stdin (with_stdin rest st)) with rest in Heq.
        subst rest. by repeat split.
      * right. exists []. by rewrite Hrun.
    + left. exists [c], rest. by repeat split.
Qed.

(** A character other than the escape character is a key by itself. *)
Lemma _getKey_plain c rest st :
  stdin st = c :: rest -> [c] <> ESCAPE -> _getKey st = (Return [c], with_stdin rest st).
Proof.
  intros Hin Hc. unfold _getKey, bind. rewrite (_getChar_cons c rest) by done.
  cbv beta iota. by destruct (decide _).
Qed.

(** The five escape sequences the editor knows are decoded as one key. *)
Lemma _getKey_known k rest st :
  k ∈ [UP; DOWN; RIGHT; LEFT; DELETE] -> stdin st = k ++ rest ->
  _getKey st = (Return k, with_stdin rest st).
Proof.
  intros Hk Hin. unfold _getKey, bind.
  repeat (apply elem_of_cons in Hk as [->|Hk]);
    [..|by apply elem_of_nil in Hk];
    rewrite (_getChar_cons "027"%char (tail (stdin st))) by (by rewrite Hin);
    rewrite Hin; reflexivity.
Qed.

(** ** Output primitives only write *)

Arguments _bound : simpl never.
Arguments getitem : simpl never.
Arguments setitem : simpl never.
Arguments slice_to : simpl never.
Arguments slice_from : simpl never.
Arguments len : simpl never.

(** [m] returns, and all it does is to append to [stdout]. *)
Definition emits (m : M unit) : Prop :=
  forall st, exists out, m st = (Return tt, with_stdout (stdout st ++ out) st).

Lemma with_stdout_id st : with_stdout (stdout st ++ []) st = st.
Proof. unfold with_stdout. rewrite app_nil_r. by destruct st. Qed.

Lemma emits_ret : emits (ret tt).
Proof. intros st. exists []. by rewrite with_stdout_id. Qed.

Lemma emits_print s : emits (print s).
Proof. intros st. by exists s. Qed.

Lemma emits_bind (m1 m2 : M unit) : emits m1 -> emits m2 -> emits (m1 ;; m2).
Proof.
  intros H1 H2 st. unfold bind. destruct (H1 st) as [o1 ->].
  destruct (H2 (with_stdout (stdout st ++ o1) st)) as [o2 ->].
  exists (o1 ++ o2). unfold with_stdout. simpl. by rewrite app_assoc.
Qed.

Lemma emits_moveCursorRight d : emits (_moveCursorRight d).
Proof.
  unfold _moveCursorRight. destruct (d >? 0); [apply emits_print|].
  destruct (d <? 0); [apply emits_print|apply emits_ret].
Qed.

Lemma emits_resetLine l : emits (_resetLine l).
Proof. apply emits_print. Qed.

Lemma emits_printHex s : emits (_printHex s).
Proof. apply emits_print. Qed.

Lemma emits_resetLineAndCursor : emits _resetLineAndCursor.
Proof.
  intros st. unfold _resetLineAndCursor, bind at 1, getSelf.
  apply (emits_bind _ _ (emits_resetLine _) (emits_moveCursorRight _)).
Qed.

(** ** The methods of the reader, as updates of its fields *)

(** [m], run in [st], returns and leaves the reader [r']; it may print and
    does not read. *)
Definition updates (m : M unit) (st : state) (r' : SingleLineReader) : Prop :=
  exists out, m st = (Return tt, mkState r' (stdin st) (stdout st ++ out)).

Definition after_moveLineDown (distDown : Z) (l : str) (r : SingleLineReader) : SingleLineReader :=
  mkReader (lines r) l
    (_bound (lineIdx r + distDown) (Some 0) (Some (len (lines r) - 1)))
    (len l) (used r) (debug r) (prompt r).

Lemma moveLineDown_spec distDown st l :
  getitem (lines (self st))
    (_bound (lineIdx (self st) + distDown) (Some 0) (Some (len (lines (self st)) - 1))) = Some l ->
  updates (moveLineDown distDown) st (after_moveLineDown distDown l (self st)).
Proof.
  intros Hl. unfold updates, moveLineDown, bind, getSelf, modify. simpl. rewrite Hl.
  match goal with |- context [_resetLineAndCursor ?s] =>
    destruct (emits_resetLineAndCursor s) as [out ->] end.
  by exists out.
Qed.

Definition after_moveCharRight (distRight : Z) (r : SingleLineReader) : SingleLineReader :=
  set_charIdx (_bound (charIdx r + distRight) (Some 0) (Some (len (line r)))) r.

Lemma moveCharRight_spec distRight st :
  updates (moveCharRight distRight) st (after_moveCharRight distRight (self st)).
Proof.
  unfold moveCharRight, bind, getSelf, modify, updates. simpl.
  match goal with |- context [_moveCursorRight ?d ?s] =>
    destruct (emits_moveCursorRight d s) as [out ->] end.
  by exists out.
Qed.

Definition after_doBackspace (r : SingleLineReader) : SingleLineReader :=
  if charIdx r >? 0 then
    set_charIdx (charIdx r - 1)
      (set_line (slice_to (line r) (charIdx r - 1) ++ slice_from (line r) (charIdx r)) r)
  else r.

Lemma doBackspace_spec st : updates doBackspace st (after_doBackspace (self st)).
Proof.
  unfold doBackspace, after_doBackspace, bind, getSelf, modify, updates. simpl.
  destruct (charIdx (self st) >? 0).
  - match goal with |- context [_resetLineAndCursor ?s] =>
      destruct (emits_resetLineAndCursor s) as [out ->] end.
    by exists out.
  - exists []. unfold ret. rewrite app_nil_r. by destruct st.
Qed.

Definition after_doDelete (r : SingleLineReader) : SingleLineReader :=
  if charIdx r <? len (line r) then
    set_line (slice_to (line r) (charIdx r) ++ slice_from (line r) (charIdx r + 1)) r
  else r.

Lemma doDelete_spec st : updates doDelete st (after_doDelete (self st)).
Proof.
  unfold doDelete, after_doDelete, bind, getSelf, modify, updates. simpl.
  destruct (charIdx (self st) <? len (line (self st))).
  - match goal with |- context [_resetLineAndCursor ?s] =>
      destruct (emits_resetLineAndCursor s) as [out ->] end.
    by exists out.
  - exists []. unfold ret. rewrite app_nil_r. by destruct st.
Qed.

Definition after_insertChar (k : str) (r : SingleLineReader) : SingleLineReader :=
  set_charIdx (charIdx r + 1)
    (set_line (slice_to (line r) (charIdx r) ++ k ++ slice_from (line r) (charIdx r)) r).

Lemma insertChar_spec k st : updates (insertChar k) st (after_insertChar k (self st)).
Proof.
  unfold insertChar, after_insertChar, bind, getSelf, modify, updates. simpl.
  match goal with |- context [_resetLineAndCursor ?s] =>
    destruct (emits_resetLineAndCursor s) as [out ->] end.
  by exists out.
Qed.

(** [lines[-1] = line] on a list that is not empty. *)
Definition after_store_line (r : SingleLineReader) : SingleLineReader :=
  set_lines (<[pred (length (lines r)) := line r]> (lines r)) r.

Lemma setitem_last {A} (l : list A) (v : A) :
  l <> [] -> setitem l (-1) v = Some (<[pred (length l) := v]> l).
Proof.
  intros Hl. unfold setitem, len. simpl.
  assert (0 < length l)%nat by (destruct l; [done|simpl; lia]).
  destruct (Z.leb_spec 0 (Z.of_nat (length l) + -1)); [|lia].
  destruct (Z.ltb_spec (Z.of_nat (length l) + -1) (Z.of_nat (length l))); [|lia].
  simpl. do 2 f_equal. lia.
Qed.

Lemma store_line_spec st :
  lines (self st) <> [] -> store_line st = (Return tt, mkState (after_store_line (self st)) (stdin st) (stdout st)).
Proof.
  intros Hl. unfold store_line, bind, getSelf. rewrite setitem_last by done. reflexivity.
Qed.

(** ** One turn of the loop of [read] *)

(** What [read_body] does once the debug lines are printed. *)
Definition dispatch (k : str) : M unit :=
  if decide (k ∈ _arrowKeys) then
    if decide (k = UP) then moveLineDown (-1)
    else if decide (k = DOWN) then moveLineDown 1
    else if decide (k = LEFT) then moveCharRight (-1)
    else if decide (k = RIGHT) then moveCharRight 1
    else ret tt
  else
    (if decide (k = BACKSPACE) then doBackspace
     else if decide (k = DELETE) then doDelete
     else if decide (k = INTERRUPT) then raise KeyboardInterrupt
     else if decide (k = EOF) then raise EOFError
     else match getitem k 0 with
          | None => raise IndexError
          | Some c =>
              if decide ([c] = ESCAPE)
              then raise (Exception (lit "unknown ANSI escape: " ++ join (lit " ") (map hex_of_ord k)))
              else insertChar k
          end) ;;
    store_line.

Lemma read_body_dispatch k st :
  exists out, read_body k st = dispatch k (with_stdout (stdout st ++ out) st).
Proof.
  unfold read_body. unfold bind at 1 2. unfold getSelf. fold (dispatch k).
  destruct (debug (self st)).
  - destruct (emits_bind _ _ (emits_print (CR ++ CLEAR_LINE)) (emits_printHex k) st) as [out ->].
    by exists out.
  - exists []. unfold ret. by rewrite with_stdout_id.
Qed.

(** The effect of one key on the reader: [key_effect k r res r'] says that
    the loop body for the key [k], started with the reader [r], comes to
    [res] and leaves the reader [r']. *)
Inductive key_effect (k : str) (r : SingleLineReader) : result unit -> SingleLineReader -> Prop :=
| effect_up l :
    k = UP ->
    getitem (lines r) (_bound (lineIdx r + -1) (Some 0) (Some (len (lines r) - 1))) = Some l ->
    key_effect k r (Return tt) (after_moveLineDown (-1) l r)
| effect_down l :
    k = DOWN ->
    getitem (lines r) (_bound (lineIdx r + 1) (Some 0) (Some (len (lines r) - 1))) = Some l ->
    key_effect k r (Return tt) (after_moveLineDown 1 l r)
| effect_left :
    k = LEFT -> key_effect k r (Return tt) (after_moveCharRight (-1) r)
| effect_right :
    k = RIGHT -> key_effect k r (Return tt) (after_moveCharRight 1 r)
| effect_backspace :
    k = BACKSPACE -> key_effect k r (Return tt) (after_store_line (after_doBackspace r))
| effect_delete :
    k = DELETE -> key_effect k r (Return tt) (after_store_line (after_doDelete r))
| effect_interrupt :
    k = INTERRUPT -> key_effect k r (Raise KeyboardInterrupt) r
| effect_eof :
    k = EOF -> key_effect k r (Raise EOFError) r
| effect_empty :
    k = [] -> key_effect k r (Raise IndexError) r
| effect_escape k' :
    k = "027"%char :: k' -> k ∉ _arrowKeys -> k <> DELETE ->
    key_effect k r
      (Raise (Exception (lit "unknown ANSI escape: " ++ join (lit " ") (map hex_of_ord k)))) r
| effect_insert c k' :
    k = c :: k' -> [c] <> ESCAPE -> k <> BACKSPACE -> k <> INTERRUPT -> k <> EOF ->
    key_effect k r (Return tt) (after_store_line (after_insertChar k r)).

Lemma bound_in_range (x n : Z) : 0 < n -> 0 <= _bound x (Some 0) (Some (n - 1)) < n.
Proof. unfold _bound. lia. Qed.

Lemma getitem_in_range {A} (l : list A) (i : Z) :
  0 <= i < len l -> exists x, getitem l i = Some x /\ l !! Z.to_nat i = Some x.
Proof.
  intros Hi. unfold getitem. destruct (Z.ltb_spec i 0); [lia|].
  destruct (lookup_lt_is_Some_2 l (Z.to_nat i)) as [x Hx]; [unfold len in Hi; lia|].
  by exists x.
Qed.

Lemma len_pos {A} (l : list A) : l <> [] -> 0 < len l.
Proof. destruct l; [done|]. unfold len. simpl. lia. Qed.

Lemma updates_bind_store m st r' :
  updates m st r' -> lines r' <> [] -> updates (m ;; store_line) st (after_store_line r').
Proof.
  intros [out Hm] Hl. exists out. unfold bind. rewrite Hm.
  by rewrite store_line_spec.
Qed.

(** Every turn of the loop is one of the cases of [key_effect]; it prints
    and reads nothing. *)
Lemma read_body_effect k st :
  lines (self st) <> [] ->
  exists res r' out,
    read_body k st = (res, mkState r' (stdin st) (stdout st ++ out)) /\
    key_effect k (self st) res r'.
Proof.
  intros Hl. destruct (read_body_dispatch k st) as [o0 ->].
  set (st0 := with_stdout (stdout st ++ o0) st).
  assert (Hupd : forall res r',
    (res = Return tt -> updates (dispatch k) st0 r') ->
    (forall e, res = Raise e -> dispatch k st0 = (Raise e, st0)) ->
    (exists e, res = Return tt \/ res = Raise e) ->
    key_effect k (self st) res r' -> (forall e, res = Raise e -> r' = self st) ->
    exists res r' out,
      dispatch k st0 = (res, mkState r' (stdin st) (stdout st ++ out)) /\
      key_effect k (self st) res r').
  { intros res r' Hret Hraise [e [->| ->]] Heff Hsame.
    - destruct (Hret eq_refl) as [out Hout]. exists (Return tt), r', (o0 ++ out).
      split; [|done]. rewrite Hout. simpl. by rewrite app_assoc.
    - exists (Raise e), (self st), o0. rewrite (Hraise e eq_refl).
      rewrite (Hsame e eq_refl) in Heff. by split. }
  assert (Hne : forall r, lines r = lines (self st) \/ length (lines r) = length (lines (self st)) ->
                          lines r <> []).
  { intros r [->| Hlen]; [done|]. intros Hr. rewrite Hr in Hlen. by destruct (lines (self st)). }
  unfold dispatch in *. destruct (decide (k ∈ _arrowKeys)) as [Harrow|Harrow].
  - destruct (decide (k = UP)) as [->|?]; [|destruct (decide (k = DOWN)) as [->|?];
      [|destruct (decide (k = LEFT)) as [->|?]; [|destruct (decide (k = RIGHT)) as [->|?]]]].
    + destruct (getitem_in_range (lines (self st))
        (_bound (lineIdx (self st) + -1) (Some 0) (Some (len (lines (self st)) - 1))))
        as (l & Hget & _); [by apply bound_in_range, len_pos|].
      apply (Hupd (Return tt) (after_moveLineDown (-1) l (self st))); try done; [|by exists KeyboardInterrupt; left|by constructor].
      intros _. by apply (moveLineDown_spec (-1) st0).
    + destruct (getitem_in_range (lines (self st))
        (_bound (lineIdx (self st) + 1) (Some 0) (Some (len (lines (self st)) - 1))))
        as (l & Hget & _); [by apply bound_in_range, len_pos|].
      apply (Hupd (Return tt) (after_moveLineDown 1 l (self st))); try done; [|by exists KeyboardInterrupt; left|by constructor].
      intros _. by apply (moveLineDown_spec 1 st0).
    + apply (Hupd (Return tt) (after_moveCharRight (-1) (self st))); try done; [|by exists KeyboardInterrupt; left|by constructor].
      intros _. apply (moveCharRight_spec (-1) st0).
    + apply (Hupd (Return tt) (after_moveCharRight 1 (self st))); try done; [|by exists KeyboardInterrupt; left|by constructor].
      intros _. apply (moveCharRight_spec 1 st0).
    + exfalso. unfold _arrowKeys in Harrow.
      repeat (apply elem_of_cons in Harrow as [?|Harrow]; [done|]).
      by apply elem_of_nil in Harrow.
  - destruct (decide (k = BACKSPACE)) as [->|?]; [|destruct (decide (k = DELETE)) as [->|?];
      [|destruct (decide (k = INTERRUPT)) as [->|?]; [|destruct (decide (k = EOF)) as [->|?]]]].
    + apply (Hupd (Return tt) (after_store_line (after_doBackspace (self st)))); try done; [|by exists KeyboardInterrupt; left|by constructor].
      intros _. apply (updates_bind_store _ st0), Hne; [apply (doBackspace_spec st0)|].
      left. unfold after_doBackspace. by destruct (_ >? _).
    + apply (Hupd (Return tt) (after_store_line (after_doDelete (self st)))); try done; [|by exists KeyboardInterrupt; left|by constructor].
      intros _. apply (updates_bind_store _ st0), Hne; [apply (doDelete_spec st0)|].
      left. unfold after_doDelete. by destruct (_ <? _).
    + apply (Hupd (Raise KeyboardInterrupt) (self st)); try done; [by intros e [= <-]|by eexists; right|by constructor].
    + apply (Hupd (Raise EOFError) (self st)); try done; [by intros e [= <-]|by eexists; right|by constructor].
    + destruct k as [|c k'].
      * apply (Hupd (Raise IndexError) (self st)); try done; [by intros e [= <-]|by eexists; right|by constructor].
      * change (getitem (c :: k') 0) with (Some c) in *. cbv beta iota in Hupd |- *.
        destruct (decide ([c] = ESCAPE)) as [Hc|Hc].
        -- injection Hc as ->.
           apply (Hupd (Raise (Exception (lit "unknown ANSI escape: " ++
                    join (lit " ") (map hex_of_ord ("027"%char :: k'))))) (self st));
             try done; [by intros e [= <-]|by eexists; right|by econstructor].
        -- apply (Hupd (Return tt) (after_store_line (after_insertChar (c :: k') (self st))));
             try done; [|by exists KeyboardInterrupt; left|by econstructor].
           intros _. apply (updates_bind_store _ st0), Hne; [apply (insertChar_spec _ st0)|].
           by left.
Qed.

(** ** Invariants of the reader *)

(** The history is not empty, the active index is an index of it, the
    cursor lies within the line, and while the active index is the newest
    entry that entry is the line being edited. *)
Record wf (r : SingleLineReader) : Prop := mkWf {
  wf_lines : lines r <> [];
  wf_lineIdx : 0 <= lineIdx r < len (lines r);
  wf_charIdx : 0 <= charIdx r <= len (line r);
  wf_newest : lineIdx r = len (lines r) - 1 -> last (lines r) = Some (line r)
}.

Lemma len_app {A} (a b : list A) : len (a ++ b) = len a + len b.
Proof. unfold len. rewrite length_app. lia. Qed.

Lemma len_nonneg {A} (l : list A) : 0 <= len l.
Proof. unfold len. lia. Qed.

Lemma len_slice_to {A} (l : list A) (i : Z) : 0 <= i <= len l -> len (slice_to l i) = i.
Proof.
  intros Hi. unfold slice_to, len in *. destruct (Z.ltb_spec i 0); [lia|].
  rewrite length_take. lia.
Qed.

Lemma len_slice_from {A} (l : list A) (i : Z) : 0 <= i <= len l -> len (slice_from l i) = len l - i.
Proof.
  intros Hi. unfold slice_from, len in *. destruct (Z.ltb_spec i 0); [lia|].
  rewrite length_drop. lia.
Qed.

Lemma wf_init pastLines prompt debug : wf (init pastLines prompt debug).
Proof.
  unfold init. split; simpl.
  - by destruct pastLines.
  - rewrite len_app. unfold len. simpl. lia.
  - unfold len. simpl. lia.
  - intros _. by rewrite last_snoc.
Qed.

Lemma last_store {A} (l : list A) (v : A) : l <> [] -> last (<[pred (length l) := v]> l) = Some v.
Proof.
  intros Hl. rewrite last_lookup, length_insert.
  apply list_lookup_insert_eq. destruct l; [done|simpl; lia].
Qed.

Lemma key_effect_length k r res r' :
  key_effect k r res r' -> length (lines r') = length (lines r).
Proof.
  destruct 1; try done; unfold after_store_line; simpl; rewrite length_insert;
    unfold after_doBackspace, after_doDelete; by repeat case_match.
Qed.

(** A key leaves every entry of the history as it is, the last one apart. *)
Lemma key_effect_older k r res r' (j : nat) :
  key_effect k r res r' -> j <> pred (length (lines r)) -> lines r' !! j = lines r !! j.
Proof.
  intros Heff Hj.
  assert (Hstore : forall r0, lines r0 = lines r ->
            lines (after_store_line r0) !! j = lines r !! j).
  { intros r0 Hr0. unfold after_store_line. simpl. rewrite Hr0.
    by apply list_lookup_insert_ne. }
  destruct Heff; try done; apply Hstore;
    unfold after_doBackspace, after_doDelete; by repeat case_match.
Qed.

(** The arrow keys do not write to the history at all. *)
Lemma key_effect_arrow k r res r' :
  key_effect k r res r' -> k ∈ _arrowKeys -> lines r' = lines r.
Proof.
  intros Heff Hk. destruct Heff; subst; try done; exfalso; unfold _arrowKeys in Hk;
    repeat (apply elem_of_cons in Hk as [Heq|Hk];
            [first [done | by injection Heq as -> ->]|]);
    by apply elem_of_nil in Hk.
Qed.

(** Any other key that is handled stores the line in the last entry. *)
Lemma key_effect_edit k r r' :
  key_effect k r (Return tt) r' -> lines r <> [] -> k ∉ _arrowKeys ->
  last (lines r') = Some (line r').
Proof.
  intros Heff Hl Hk.
  assert (Hstore : forall r0, lines r0 = lines r ->
            last (lines (after_store_line r0)) = Some (line (after_store_line r0))).
  { intros r0 Hr0. unfold after_store_line. simpl. apply last_store. by rewrite Hr0. }
  inversion Heff; subst; try (apply Hstore; unfold after_doBackspace, after_doDelete;
    by repeat case_match); exfalso; apply Hk; unfold _arrowKeys;
    repeat constructor.
Qed.

(** A key that makes the loop body raise leaves the reader as it was. *)
Lemma key_effect_raise k r e r' : key_effect k r (Raise e) r' -> r' = r.
Proof. by inversion 1. Qed.

Lemma key_effect_result k r res r' :
  key_effect k r res r' -> res = Return tt \/ exists e, res = Raise e.
Proof. destruct 1; eauto. Qed.

Lemma key_effect_fields k r res r' :
  key_effect k r res r' -> used r' = used r /\ debug r' = debug r /\ prompt r' = prompt r.
Proof.
  destruct 1; try done; unfold after_store_line, after_doBackspace, after_doDelete;
    simpl; by repeat case_match.
Qed.

Lemma key_effect_wf k r res r' : key_effect k r res r' -> wf r -> wf r'.
Proof.
  intros Heff [Hl Hli Hci Hnew].
  assert (Hlen := key_effect_length _ _ _ _ Heff).
  assert (Hl' : lines r' <> []).
  { intros H0. rewrite H0 in Hlen. by destruct (lines r). }
  assert (Hstore : forall r0, lines r0 = lines r -> lineIdx r0 = lineIdx r ->
            0 <= charIdx r0 <= len (line r0) -> wf (after_store_line r0)).
  { intros r0 Hr0 Hi0 Hc0. unfold after_store_line. split; simpl.
    - intros H0. apply (f_equal length) in H0. rewrite length_insert, Hr0 in H0.
      by destruct (lines r).
    - unfold len. rewrite length_insert, Hr0, Hi0. apply Hli.
    - done.
    - intros _. apply last_store. by rewrite Hr0. }
  assert (Hmove : forall d l,
            getitem (lines r) (_bound (lineIdx r + d) (Some 0) (Some (len (lines r) - 1))) = Some l ->
            wf (after_moveLineDown d l r)).
  { intros d l Hget. pose proof (bound_in_range (lineIdx r + d) (len (lines r)) (len_pos _ Hl)) as Hb.
    split; simpl; try done.
    - pose proof (len_nonneg l). lia.
    - intros Hlast. rewrite Hlast in Hget. rewrite last_lookup.
      destruct (getitem_in_range (lines r) (len (lines r) - 1)) as (x & Hx & Hx'); [lia|].
      rewrite Hget in Hx. injection Hx as <-. rewrite <- Hx'. f_equal. unfold len. lia. }
  pose proof (len_nonneg (line r)) as Hn.
  destruct Heff; subst; try done; try (by apply Hmove).
  - split; simpl; try done. unfold _bound. lia.
  - split; simpl; try done. unfold _bound. lia.
  - apply Hstore; unfold after_doBackspace; destruct (Z.gtb_spec (charIdx r) 0); simpl; try done.
    rewrite len_app, len_slice_to, len_slice_from by lia. lia.
  - apply Hstore; unfold after_doDelete; destruct (Z.ltb_spec (charIdx r) (len (line r))); simpl; try done.
    rewrite len_app, len_slice_to, len_slice_from by lia. lia.
  - apply Hstore; [done|done|].
    change (0 <= charIdx r + 1 <=
            len (slice_to (line r) (charIdx r) ++ (c :: k') ++ slice_from (line r) (charIdx r))).
    rewrite !len_app, len_slice_to, len_slice_from by lia.
    assert (0 < len (c :: k')) by (unfold len; simpl; lia). lia.
Qed.

(** ** The loop of [read] *)

(** One turn of the loop: a key other than Enter is decoded and handled,
    and the loop goes on. *)
Definition loop_step (k : str) (st st' : state) : Prop :=
  exists st1, _getKey st = (Return k, st1) /\ k <> CR /\ read_body k st1 = (Return tt, st').

(** [steps st ks st']: the loop, started in [st], has handled the keys [ks]
    in turn and is about to decode the next one in [st']. *)
Inductive steps (st : state) : list str -> state -> Prop :=
| steps_nil : steps st [] st
| steps_snoc ks st1 k st2 :
    steps st ks st1 -> loop_step k st1 st2 -> steps st (ks ++ [k]) st2.

(** How the loop ends when the next key is decoded in [st]: with Enter,
    with a key whose handling raises, or waiting for input. *)
Inductive loop_end (st : state) : result str -> state -> Prop :=
| end_accept st1 :
    _getKey st = (Return CR, st1) ->
    loop_end st (Return (line (self st)))
      (mkState (after_store_line (self st)) (stdin st1) (stdout st ++ [LF]))
| end_raise k st1 e st' :
    _getKey st = (Return k, st1) -> k <> CR -> read_body k st1 = (Raise e, st') ->
    loop_end st (Raise e) st'
| end_blocked st1 :
    _getKey st = (Blocked, st1) -> loop_end st Blocked st1.

Lemma _getKey_Return st k st1 :
  _getKey st = (Return k, st1) ->
  k <> [] /\ stdin st = k ++ stdin st1 /\ self st1 = self st /\ stdout st1 = stdout st.
Proof.
  intros H. destruct (_getKey_inv st) as [(k' & rest & Hk & Hin & Hrun)|[rest Hrun]];
    rewrite Hrun in H; [|done].
  injection H as <- <-. by repeat split.
Qed.

Lemma _getKey_Blocked st st1 :
  _getKey st = (Blocked, st1) -> self st1 = self st /\ stdout st1 = stdout st.
Proof.
  intros H. destruct (_getKey_inv st) as [(k' & rest & Hk & Hin & Hrun)|[rest Hrun]];
    rewrite Hrun in H; [done|].
  by injection H as <-.
Qed.

Lemma loop_step_effect k st st' :
  loop_step k st st' -> lines (self st) <> [] ->
  key_effect k (self st) (Return tt) (self st') /\ k <> [] /\ stdin st = k ++ stdin st'.
Proof.
  intros (st1 & Hkey & Hcr & Hbody) Hl.
  apply _getKey_Return in Hkey as (Hk & Hin & Hself & Hout).
  destruct (read_body_effect k st1) as (res & r' & out & Hrun & Heff); [by rewrite Hself|].
  rewrite Hrun in Hbody. injection Hbody as -> <-. simpl. rewrite <- Hself. by repeat split.
Qed.

Lemma app_length_lt (k rest : str) : k <> [] -> (length rest < length (k ++ rest))%nat.
Proof. intros Hk. rewrite length_app. destruct k; [done|simpl; lia]. Qed.

Lemma loop_step_wf k st st' : loop_step k st st' -> wf (self st) -> wf (self st').
Proof.
  intros Hstep Hwf. destruct (loop_step_effect _ _ _ Hstep) as (Heff & _); [apply Hwf|].
  by apply (key_effect_wf _ _ _ _ Heff).
Qed.

Lemma steps_wf st ks st' : steps st ks st' -> wf (self st) -> wf (self st').
Proof. induction 1; [done|]. intros Hwf. eapply loop_step_wf; eauto. Qed.

Lemma steps_cons k st st1 ks st2 :
  loop_step k st st1 -> steps st1 ks st2 -> steps st (k :: ks) st2.
Proof.
  intros Hstep. induction 1 as [|ks st2 k' st3 _ IH Hstep'].
  - apply (steps_snoc st [] st); [constructor|done].
  - change (k :: ks ++ [k']) with ((k :: ks) ++ [k']). by eapply steps_snoc.
Qed.

Lemma read_loop_step gas k st st' :
  loop_step k st st' -> read_loop (S gas) st = read_loop gas st'.
Proof.
  intros (st1 & Hkey & Hcr & Hbody). simpl. unfold bind at 1. rewrite Hkey.
  destruct (decide (k = CR)); [done|]. unfold bind at 1. by rewrite Hbody.
Qed.

Lemma read_loop_end gas st res st' :
  loop_end st res st' -> lines (self st) <> [] -> read_loop (S gas) st = (res, st').
Proof.
  intros Hend Hl. simpl. unfold bind at 1. destruct Hend as [st1 Hkey|k st1 e st' Hkey Hcr Hbody|st1 Hkey];
    rewrite Hkey; [| |done].
  - destruct (decide (CR = CR)); [|done].
    apply _getKey_Return in Hkey as (_ & _ & Hself & Hout).
    unfold bind at 1. rewrite store_line_spec by (by rewrite Hself).
    rewrite Hself, Hout. reflexivity.
  - destruct (decide (k = CR)); [done|]. unfold bind at 1. by rewrite Hbody.
Qed.

(** The keys handled so far have used up as many turns as characters, at
    the least. *)
Lemma steps_read_loop st ks st' gas :
  steps st ks st' -> wf (self st) -> (length (stdin st) < gas)%nat ->
  exists gas', (length (stdin st') < gas')%nat /\ read_loop gas st = read_loop gas' st'.
Proof.
  intros Hsteps Hwf Hgas. induction Hsteps as [|ks st1 k st2 Hsteps IH Hstep].
  - by exists gas.
  - destruct IH as (g1 & Hg1 & Heq). destruct g1 as [|g1]; [lia|].
    exists g1. rewrite Heq, (read_loop_step g1 k st1 st2) by done. split; [|done].
    destruct (loop_step_effect _ _ _ Hstep) as (_ & Hk & Hin);
      [by apply wf_lines, (steps_wf st ks)|].
    pose proof (app_length_lt k (stdin st2) Hk) as Hlt. rewrite <- Hin in Hlt. lia.
Qed.

(** Keys handled and the end reached determine what the loop comes to. *)
Lemma read_loop_run st ks st1 res st' gas :
  steps st ks st1 -> loop_end st1 res st' -> wf (self st) -> (length (stdin st) < gas)%nat ->
  read_loop gas st = (res, st').
Proof.
  intros Hsteps Hend Hwf Hgas.
  destruct (steps_read_loop st ks st1 gas) as (g1 & Hg1 & ->); try done.
  destruct g1 as [|g1]; [lia|]. apply read_loop_end; [done|].
  by apply wf_lines, (steps_wf st ks).
Qed.

(** The loop always comes to an end of one of the three kinds, within the
    turns it is given. *)
Lemma read_loop_outcome gas st :
  wf (self st) -> (length (stdin st) < gas)%nat ->
  exists ks st1 res st', steps st ks st1 /\ loop_end st1 res st' /\ read_loop gas st = (res, st').
Proof.
  revert st. induction gas as [|gas IH]; intros st Hwf Hgas; [lia|].
  destruct (_getKey_inv st) as [(k & rest & Hk & Hin & Hkey)|[rest Hkey]].
  - destruct (decide (k = CR)) as [->|Hcr].
    + exists [], st. do 2 eexists. split; [constructor|]. split; [by eapply end_accept|].
      apply read_loop_end; [by eapply end_accept|apply Hwf].
    + destruct (read_body_effect k (with_stdin rest st)) as (res & r' & out & Hbody & Heff);
        [apply Hwf|].
      destruct (key_effect_result _ _ _ _ Heff) as [->|[e ->]].
      * assert (Hstep : loop_step k st (mkState r' rest (stdout st ++ out))).
        { exists (with_stdin rest st). by repeat split. }
        destruct (IH (mkState r' rest (stdout st ++ out))) as (ks & st1 & res & st' & Hs & He & Hrun).
        { simpl. by apply (key_effect_wf _ _ _ _ Heff). }
        { simpl. pose proof (app_length_lt k rest Hk) as Hlt. rewrite <- Hin in Hlt. lia. }
        exists (k :: ks), st1, res, st'. split; [by eapply steps_cons|]. split; [done|].
        by rewrite (read_loop_step gas k st _ Hstep).
      * exists [], st. do 2 eexists. split; [constructor|].
        assert (Hend : loop_end st (Raise e) (mkState r' rest (stdout st ++ out))).
        { by eapply end_raise. }
        split; [done|]. apply read_loop_end; [done|apply Hwf].
  - exists [], st. do 2 eexists. split; [constructor|]. split; [by eapply end_blocked|].
    apply read_loop_end; [by eapply end_blocked|apply Hwf].
Qed.

(** The state in which the loop of [read] is entered: a fresh reader over
    [pastLines], marked as used, and the prompt printed. *)
Definition start (pastLines : list str) (prompt : str) (debug : bool) (t : tty) : state :=
  mkState (set_used true (init pastLines prompt debug)) (tty_in t) (tty_out t ++ prompt).

Lemma read_unused st :
  used (self st) = false ->
  read st = read_loop (S (length (stdin st)))
              (mkState (set_used true (self st)) (stdin st) (stdout st ++ prompt (self st))).
Proof.
  intros Hu. unfold read, _use, bind, getSelf. cbv beta iota. rewrite Hu. reflexivity.
Qed.

Lemma wf_start pastLines prompt debug t : wf (self (start pastLines prompt debug t)).
Proof. destruct (wf_init pastLines prompt debug). by split. Qed.

Lemma getLine_start i prompt t :
  getLine i prompt t =
  let '(res, st) := read_loop (S (length (tty_in t))) (start (Input_lines i) prompt (Input_debug i) t) in
  (res, mkInput (lines (self st)) (Input_debug i), mkTty (stdin st) (stdout st), self st).
Proof. unfold getLine. by rewrite read_unused. Qed.

Lemma loop_end_result st res st' : loop_end st res st' -> res <> OutOfGas.
Proof. by destruct 1. Qed.

(** [read] never runs out of turns. *)
Lemma read_gas st : wf (self st) -> fst (read st) <> OutOfGas.
Proof.
  intros Hwf. destruct (used (self st)) eqn:Hu.
  - unfold read, _use, bind, getSelf. cbv beta iota. by rewrite Hu.
  - rewrite read_unused by done.
    match goal with |- fst (read_loop ?g ?s) <> _ =>
      destruct (read_loop_outcome g s) as (ks & st1 & res & st' & _ & Hend & ->) end.
    + destruct Hwf. by split.
    + simpl. lia.
    + by eapply loop_end_result.
Qed.

(** * The relative cursor motion *)

(** The value of a decimal digit. *)
Definition digit_value (c : ascii) : option Z :=
  let n := Z.of_N (N_of_ascii c) in
  if (48 <=? n) && (n <=? 57) then Some (n - 48) else None.

(** Reading digits from the left, [acc] being the value read so far. *)
Fixpoint read_digits (acc : Z) (ds : str) : option Z :=
  match ds with
  | [] => Some acc
  | c :: ds' =>
      match digit_value c with
      | Some d => read_digits (10 * acc + d) ds'
      | None => None
      end
  end.

(** [ds] is the decimal numeral of [n]: digits only, at least one, no
    leading zero, of value [n]. *)
Definition decimal_numeral (ds : str) (n : Z) : Prop :=
  (exists c ds', ds = c :: ds' /\ c <> "0"%char) /\ read_digits 0 ds = Some n.

Definition uint_chars (d : Decimal.uint) : str :=
  lit (DecimalString.NilEmpty.string_of_uint d).

Lemma read_digits_uint d acc :
  read_digits (Z.pos acc) (uint_chars d) = Some (Z.pos (Pos.of_uint_acc d acc)).
Proof.
  revert acc. unfold uint_chars.
  induction d as [|d IH|d IH|d IH|d IH|d IH|d IH|d IH|d IH|d IH|d IH]; intros acc;
    [done|..];
    cbn [DecimalString.NilEmpty.string_of_uint lit String.list_ascii_of_string
         read_digits Pos.of_uint_acc];
    match goal with |- context [digit_value ?c] =>
      let v := eval vm_compute in (digit_value c) in change (digit_value c) with v end;
    cbv beta iota; fold (lit (DecimalString.NilEmpty.string_of_uint d));
    rewrite <- IH; f_equal; lia.
Qed.

Lemma unorm_leading d :
  Decimal.unorm d = d -> d <> Decimal.zero ->
  (exists c ds', uint_chars d = c :: ds' /\ c <> "0"%char) /\
  read_digits 0 (uint_chars d) = Some (Z.of_N (Pos.of_uint d)).
Proof.
  intros Hn Hz. destruct d as [|d|d|d|d|d|d|d|d|d|d];
    try (split; [by eexists _, _|]; unfold uint_chars;
         cbn [DecimalString.NilEmpty.string_of_uint lit String.list_ascii_of_string
              read_digits Pos.of_uint];
         match goal with |- context [digit_value ?c] =>
           let v := eval vm_compute in (digit_value c) in change (digit_value c) with v end;
         cbv beta iota; apply (read_digits_uint d)).
  - done.
  - exfalso. rewrite DecimalFacts.unorm_D0 in Hn.
    destruct d as [|d|d|d|d|d|d|d|d|d|d]; [done|..];
      match type of Hn with Decimal.unorm ?u = _ =>
        assert (Hnb := DecimalFacts.nb_digits_unorm u ltac:(done)) end;
      rewrite Hn in Hnb; cbn [Decimal.nb_digits] in Hnb; lia.
Qed.

Lemma str_of_int_pos p : decimal_numeral (str_of_int (Z.pos p)) (Z.pos p).
Proof.
  unfold str_of_int, decimal_numeral. cbn [Z.to_int DecimalString.NilZero.string_of_int].
  assert (Hnil := DecimalPos.Unsigned.to_uint_nonnil p).
  assert (Hzero := DecimalPos.Unsigned.to_uint_nonzero p).
  assert (Hnorm : Decimal.unorm (Pos.to_uint p) = Pos.to_uint p).
  { rewrite <- DecimalPos.Unsigned.to_of, DecimalPos.Unsigned.of_to. reflexivity. }
  replace (DecimalString.NilZero.string_of_uint (Pos.to_uint p))
    with (DecimalString.NilEmpty.string_of_uint (Pos.to_uint p))
    by (by destruct (Pos.to_uint p)).
  destruct (unorm_leading _ Hnorm Hzero) as [Hlead Hval].
  split; [done|]. fold (uint_chars (Pos.to_uint p)).
  by rewrite Hval, DecimalPos.Unsigned.of_to.
Qed.

Example str_of_int_12 : str_of_int 12 = lit "12".
Proof. reflexivity. Qed.

Example moveCursorRight_left3 st :
  _moveCursorRight (-3) st = (Return tt, with_stdout (stdout st ++ "027"%char :: lit "[3D") st).
Proof. reflexivity. Qed.

(** C10.  For every integer [delta], [_moveCursorRight delta] returns and
    appends to the output exactly [ESC [ N C], with [N] the decimal numeral
    of [delta], when [delta > 0]; exactly [ESC [ N D], with [N] the decimal
    numeral of [-delta], when [delta < 0]; and nothing when [delta = 0].  It
    changes nothing else. *)
Theorem moveCursorRight_sequence (delta : Z) (st : state) :
  exists out,
    _moveCursorRight delta st = (Return tt, with_stdout (stdout st ++ out) st) /\
    match delta ?= 0 with
    | Gt => exists N, decimal_numeral N delta /\ out = "027"%char :: "["%char :: N ++ ["C"%char]
    | Lt => exists N, decimal_numeral N (- delta) /\ out = "027"%char :: "["%char :: N ++ ["D"%char]
    | Eq => out = []
    end.
Proof.
  unfold _moveCursorRight. destruct delta as [|p|p]; simpl.
  - exists []. split; [|done]. unfold ret. by rewrite with_stdout_id.
  - eexists. split; [reflexivity|]. exists (str_of_int (Z.pos p)).
    split; [apply str_of_int_pos|done].
  - eexists. split; [reflexivity|]. exists (str_of_int (Z.pos p)).
    split; [apply str_of_int_pos|done].
Qed.

(** * Sessions *)

(** Running the loop on the keys [ks], which have to be the keys decoded
    from [stdin] in turn: a checker for [steps] on concrete input. *)
Fixpoint run_keys (ks : list str) (st : state) : option state :=
  match ks with
  | [] => Some st
  | k :: ks' =>
      match _getKey st with
      | (Return k', st1) =>
          if decide (k' = k) then
            if decide (k = CR) then None
            else match read_body k st1 with
                 | (Return tt, st') => run_keys ks' st'
                 | _ => None
                 end
          else None
      | _ => None
      end
  end.

Lemma run_keys_steps ks st st' : run_keys ks st = Some st' -> steps st ks st'.
Proof.
  revert st. induction ks as [|k ks IH]; intros st; simpl.
  - intros [= <-]. constructor.
  - destruct (_getKey st) as [[k'| | |] st1] eqn:Hkey; try done.
    destruct (decide (k' = k)) as [->|]; [|done].
    destruct (decide (k = CR)); [done|].
    destruct (read_body k st1) as [[[]| | |] st2] eqn:Hbody; try done.
    intros Hrun. apply (steps_cons k st st2); [|by apply IH].
    by exists st1.
Qed.

(** The state the loop is in after the keys [ks] ([st] itself where they
    are not what [stdin] holds). *)
Definition after_keys (ks : list str) (st : state) : state := default st (run_keys ks st).

Lemma after_keys_steps ks st : is_Some (run_keys ks st) -> steps st ks (after_keys ks st).
Proof. intros [st' H]. apply run_keys_steps. unfold after_keys. by rewrite H. Qed.

(** The whole session, from a fresh reader over [pastLines]. *)
Definition session (pastLines : list str) (prompt : str) (debug : bool) (t : tty)
  : result str * state :=
  read (mkState (init pastLines prompt debug) (tty_in t) (tty_out t)).

Lemma session_start pastLines prompt debug t :
  session pastLines prompt debug t =
  read_loop (S (length (tty_in t))) (start pastLines prompt debug t).
Proof. unfold session. by rewrite read_unused. Qed.

(** A session that has handled the keys [ks] and then reaches an end comes
    to that end. *)
Lemma session_run pastLines prompt debug t ks st res st' :
  steps (start pastLines prompt debug t) ks st -> loop_end st res st' ->
  session pastLines prompt debug t = (res, st').
Proof.
  intros Hsteps Hend. rewrite session_start.
  apply (read_loop_run _ ks st); try done; [apply wf_start|simpl; lia].
Qed.

(** Every session comes to an end: after some keys it is accepted, it
    raises, or it waits for input that does not come. *)
Lemma session_outcome pastLines prompt debug t :
  exists ks st res st',
    steps (start pastLines prompt debug t) ks st /\ loop_end st res st' /\
    session pastLines prompt debug t = (res, st').
Proof.
  rewrite session_start. apply read_loop_outcome; [apply wf_start|simpl; lia].
Qed.

Lemma getLine_session i prompt t :
  getLine i prompt t =
  let '(res, st) := session (Input_lines i) prompt (Input_debug i) t in
  (res, mkInput (lines (self st)) (Input_debug i), mkTty (stdin st) (stdout st), self st).
Proof. reflexivity. Qed.

Lemma insert_last_snoc {A} (past : list A) (x v : A) :
  <[pred (length (past ++ [x])) := v]> (past ++ [x]) = past ++ [v].
Proof.
  rewrite length_app. simpl. replace (pred (length past + 1)) with (length past + 0)%nat by lia.
  by rewrite insert_app_r.
Qed.

(** A key keeps the entries that were there before the session. *)
Lemma key_effect_past k r res r' past x :
  key_effect k r res r' -> lines r = past ++ [x] -> exists x', lines r' = past ++ [x'].
Proof.
  intros Heff Hr.
  assert (Hstore : forall r0, lines r0 = lines r ->
            exists x', lines (after_store_line r0) = past ++ [x']).
  { intros r0 Hr0. unfold after_store_line. simpl. rewrite Hr0, Hr.
    eexists. apply insert_last_snoc. }
  destruct Heff; eauto; apply Hstore;
    unfold after_doBackspace, after_doDelete; by repeat case_match.
Qed.

Lemma steps_past pastLines prompt debug t ks st :
  steps (start pastLines prompt debug t) ks st -> exists x, lines (self st) = pastLines ++ [x].
Proof.
  induction 1 as [|ks st1 k st2 Hsteps [x IH] Hstep].
  - by exists [].
  - destruct (loop_step_effect _ _ _ Hstep) as (Heff & _).
    { rewrite IH. by destruct pastLines. }
    by apply (key_effect_past _ _ _ _ _ _ Heff IH).
Qed.

Lemma loop_end_past st res st' past x :
  loop_end st res st' -> lines (self st) = past ++ [x] ->
  exists x', lines (self st') = past ++ [x'].
Proof.
  intros Hend Hl. destruct Hend as [st1 Hkey|k st1 e st' Hkey Hcr Hbody|st1 Hkey].
  - simpl. rewrite Hl. eexists. apply insert_last_snoc.
  - apply _getKey_Return in Hkey as (_ & _ & Hself & _).
    destruct (read_body_effect k st1) as (res & r' & out & Hrun & Heff).
    { rewrite Hself, Hl. by destruct past. }
    rewrite Hrun in Hbody. injection Hbody as -> <-. simpl.
    eapply key_effect_past; [exact Heff|by rewrite Hself].
  - apply _getKey_Blocked in Hkey as [-> _]. eauto.
Qed.

(** The end of the loop keeps the reader well formed. *)
Lemma loop_end_wf st res st' : loop_end st res st' -> wf (self st) -> wf (self st').
Proof.
  intros Hend Hwf. destruct Hend as [st1 Hkey|k st1 e st' Hkey Hcr Hbody|st1 Hkey].
  - destruct Hwf as [Hl Hli Hci Hnew]. unfold after_store_line. split; simpl; try done.
    + intros H0. apply (f_equal length) in H0. rewrite length_insert in H0.
      by destruct (lines (self st)).
    + unfold len in *. by rewrite length_insert.
    + intros _. by apply last_store.
  - apply _getKey_Return in Hkey as (_ & _ & Hself & _).
    destruct (read_body_effect k st1) as (res & r' & out & Hrun & Heff).
    { rewrite Hself. apply Hwf. }
    rewrite Hrun in Hbody. injection Hbody as -> <-. simpl.
    apply (key_effect_wf _ _ _ _ Heff). by rewrite Hself.
  - apply _getKey_Blocked in Hkey as [-> _]. apply Hwf.
Qed.

(** * The claims *)

(** ** C3: the cursor stays within the line *)

Example cursor_after_abc_backspaces :
  option_map (fun st => (line (self st), charIdx (self st)))
    (run_keys [lit "a"; lit "b"; lit "c"; BACKSPACE; BACKSPACE]
       (start [] [] false (mkTty (lit "abc" ++ BACKSPACE ++ BACKSPACE) [])))
  = Some (lit "a", 1).
Proof. vm_compute. reflexivity. Qed.

Example cursor_left_at_zero :
  option_map (fun st => (line (self st), charIdx (self st)))
    (run_keys [LEFT] (start [] [] false (mkTty LEFT [])))
  = Some ([], 0).
Proof. vm_compute. reflexivity. Qed.

(** C3.  Whatever keys a session has handled (printable characters,
    Backspace, Delete and the four arrows alike), the cursor index is
    between 0 and the length of the line: after every turn of the loop, and
    also in the reader as the session leaves it, however the loop ends. *)
Theorem cursor_within_line pastLines prompt debug t ks st :
  steps (start pastLines prompt debug t) ks st ->
  (0 <= charIdx (self st) <= len (line (self st))) /\
  (forall res st', loop_end st res st' -> 0 <= charIdx (self st') <= len (line (self st'))).
Proof.
  intros Hsteps.
  assert (Hwf : wf (self st)) by apply (steps_wf _ _ _ Hsteps), wf_start.
  split; [apply Hwf|].
  intros res st' Hend. by apply wf_charIdx, (loop_end_wf st res st').
Qed.

Lemma cursor_within_line_witness :
  let s0 := start [] (lit "> ") false (mkTty (lit "ab" ++ LEFT ++ BACKSPACE) []) in
  let ks := [lit "a"; lit "b"; LEFT; BACKSPACE] in
  steps s0 ks (after_keys ks s0) /\
  (0 <= charIdx (self (after_keys ks s0)) <= len (line (self (after_keys ks s0)))).
Proof.
  intros s0 ks.
  assert (Hsteps : steps s0 ks (after_keys ks s0)).
  { apply after_keys_steps. vm_compute. by eexists. }
  split; [exact Hsteps|].
  exact (proj1 (cursor_within_line _ _ _ _ _ _ Hsteps)).
Defined.

(** ** C2: which entries of the history a session writes *)

(** With the history ["foo"], ArrowUp makes entry 0 the active one; the
    key "x" then leaves entry 0 alone and overwrites entry 1, which is not
    the active entry. *)
Lemma edit_at_older_index_writes_newest :
  let '(_, before, _, r0) := getLine (mkInput [lit "foo"] false) [] (mkTty UP []) in
  let '(_, after, _, r1) := getLine (mkInput [lit "foo"] false) [] (mkTty (UP ++ lit "x") []) in
  lineIdx r0 = 0 /\ Input_lines before = [lit "foo"; []] /\
  lineIdx r1 = 0 /\ Input_lines after = [lit "foo"; lit "foox"].
Proof. vm_compute. by repeat split. Qed.

(** C2, amended.  During a session every entry of the history other than
    the newest one (the entry the session appended, at the last index) keeps
    its value, whatever the active index is: after every turn of the loop
    and when the loop has ended the history is the history from before the
    session followed by one entry.  The arrow keys write nothing at all. *)
Theorem only_newest_entry_written pastLines prompt debug t ks st :
  steps (start pastLines prompt debug t) ks st ->
  (exists newest, lines (self st) = pastLines ++ [newest]) /\
  (forall k st1, loop_step k st st1 -> k ∈ _arrowKeys -> lines (self st1) = lines (self st)) /\
  (forall res st', loop_end st res st' -> exists newest, lines (self st') = pastLines ++ [newest]).
Proof.
  intros Hsteps. destruct (steps_past _ _ _ _ _ _ Hsteps) as [x Hx]. split; [by exists x|]. split.
  - intros k st1 Hstep Hk. destruct (loop_step_effect _ _ _ Hstep) as (Heff & _).
    { rewrite Hx. by destruct pastLines. }
    by apply (key_effect_arrow _ _ _ _ Heff).
  - intros res st' Hend. by apply (loop_end_past st res st' pastLines x).
Qed.

Lemma only_newest_entry_written_witness :
  let s0 := start [lit "foo"] [] false (mkTty (UP ++ lit "x") []) in
  let ks := [UP; lit "x"] in
  steps s0 ks (after_keys ks s0) /\
  exists newest, lines (self (after_keys ks s0)) = [lit "foo"] ++ [newest].
Proof.
  intros s0 ks.
  assert (Hsteps : steps s0 ks (after_keys ks s0)).
  { apply after_keys_steps. vm_compute. by eexists. }
  split; [exact Hsteps|].
  exact (proj1 (only_newest_entry_written _ _ _ _ _ _ Hsteps)).
Defined.

(** ** C1: what Enter returns *)

Lemma getitem_last {A} (l : list A) (x : A) :
  last l = Some x -> getitem l (len l - 1) = Some x.
Proof.
  intros Hlast. assert (l <> []) as Hl by (by intros ->).
  destruct (getitem_in_range l (len l - 1)) as (y & Hy & Hy').
  { pose proof (len_pos l Hl). lia. }
  rewrite Hy. rewrite last_lookup in Hlast. rewrite <- Hlast, <- Hy'. f_equal. unfold len. lia.
Qed.

(** With the history ["foo"], ArrowUp, "x" and Enter return "foox" while
    the entry at the active index, 0, still is "foo". *)
Lemma enter_at_older_index :
  let '(res, i, _, r) :=
    getLine (mkInput [lit "foo"] false) [] (mkTty (UP ++ lit "x" ++ CR) []) in
  res = Return (lit "foox") /\ lineIdx r = 0 /\
  getitem (Input_lines i) (lineIdx r) = Some (lit "foo") /\
  Input_lines i = [lit "foo"; lit "foox"].
Proof. vm_compute. by repeat split. Qed.

(** C1, amended.  When Enter (the carriage return) is the next key decoded,
    after whatever keys the session has handled, [read] returns the line of
    the buffer, and that line is the final content of the newest entry of
    the history, the one the session appended.  It is the entry at the
    active index when the active index is the newest entry; the active
    index and the buffer are as they were before Enter. *)
Theorem enter_returns_line pastLines prompt debug t ks st rest :
  steps (start pastLines prompt debug t) ks st ->
  stdin st = CR ++ rest ->
  exists st',
    session pastLines prompt debug t = (Return (line (self st)), st') /\
    last (lines (self st')) = Some (line (self st)) /\
    line (self st') = line (self st) /\
    lineIdx (self st') = lineIdx (self st) /\
    (lineIdx (self st) = len (lines (self st)) - 1 ->
     getitem (lines (self st')) (lineIdx (self st')) = Some (line (self st))) /\
    stdin st' = rest.
Proof.
  intros Hsteps Hin.
  assert (Hwf : wf (self st)) by apply (steps_wf _ _ _ Hsteps), wf_start.
  assert (Hkey : _getKey st = (Return CR, with_stdin rest st)).
  { by apply (_getKey_plain "013"%char). }
  eexists. split; [apply (session_run _ _ _ _ ks st); [done|by eapply end_accept]|].
  simpl. assert (Hlast : last (<[pred (length (lines (self st))) := line (self st)]> (lines (self st)))
                         = Some (line (self st))) by apply last_store, Hwf.
  repeat split; try done.
  intros Hnew. apply getitem_last in Hlast. rewrite <- Hlast. f_equal.
  unfold len. rewrite length_insert. apply Hnew.
Qed.

Lemma enter_returns_line_witness :
  let s0 := start [lit "foo"] (lit "> ") false (mkTty (lit "ab" ++ CR ++ lit "zz") []) in
  let ks := [lit "a"; lit "b"] in
  steps s0 ks (after_keys ks s0) /\ stdin (after_keys ks s0) = CR ++ lit "zz" /\
  exists st',
    session [lit "foo"] (lit "> ") false (mkTty (lit "ab" ++ CR ++ lit "zz") [])
      = (Return (line (self (after_keys ks s0))), st') /\
    last (lines (self st')) = Some (line (self (after_keys ks s0))).
Proof.
  intros s0 ks.
  assert (Hsteps : steps s0 ks (after_keys ks s0)).
  { apply after_keys_steps. vm_compute. by eexists. }
  assert (Hin : stdin (after_keys ks s0) = CR ++ lit "zz") by (vm_compute; reflexivity).
  split; [exact Hsteps|]. split; [exact Hin|].
  destruct (enter_returns_line _ _ _ _ _ _ _ Hsteps Hin) as (st' & Hrun & Hlast & _).
  exists st'. by split.
Defined.

(** ** C4 and C5: the arrows up and down *)

Lemma key_effect_UP r res r' :
  key_effect UP r res r' ->
  exists l, getitem (lines r) (_bound (lineIdx r + -1) (Some 0) (Some (len (lines r) - 1))) = Some l /\
            res = Return tt /\ r' = after_moveLineDown (-1) l r.
Proof.
  inversion 1 as [l ? Hget|l ?|?|?|?|?|?|?|?|k' ? Hk|c k' Heq Hc]; try done.
  - by exists l.
  - destruct Hk. repeat constructor.
  - injection Heq as <- <-. done.
Qed.

Lemma key_effect_DOWN r res r' :
  key_effect DOWN r res r' ->
  exists l, getitem (lines r) (_bound (lineIdx r + 1) (Some 0) (Some (len (lines r) - 1))) = Some l /\
            res = Return tt /\ r' = after_moveLineDown 1 l r.
Proof.
  inversion 1 as [l ?|l ? Hget|?|?|?|?|?|?|?|k' ? Hk|c k' Heq Hc]; try done.
  - by exists l.
  - destruct Hk. repeat constructor.
  - injection Heq as <- <-. done.
Qed.

(** An arrow up or down at the head of [stdin] is decoded and handled. *)
Lemma loop_step_UP st rest :
  wf (self st) -> stdin st = UP ++ rest ->
  exists st' l,
    loop_step UP st st' /\ stdin st' = rest /\
    getitem (lines (self st))
      (_bound (lineIdx (self st) + -1) (Some 0) (Some (len (lines (self st)) - 1))) = Some l /\
    self st' = after_moveLineDown (-1) l (self st).
Proof.
  intros Hwf Hin.
  assert (Hkey : _getKey st = (Return UP, with_stdin rest st)).
  { apply _getKey_known; [repeat constructor|done]. }
  destruct (read_body_effect UP (with_stdin rest st)) as (res & r' & out & Hbody & Heff);
    [apply Hwf|].
  apply key_effect_UP in Heff as (l & Hget & -> & ->).
  eexists _, l. split; [exists (with_stdin rest st); by repeat split|]. by repeat split.
Qed.

Lemma loop_step_DOWN st rest :
  wf (self st) -> stdin st = DOWN ++ rest ->
  exists st' l,
    loop_step DOWN st st' /\ stdin st' = rest /\
    getitem (lines (self st))
      (_bound (lineIdx (self st) + 1) (Some 0) (Some (len (lines (self st)) - 1))) = Some l /\
    self st' = after_moveLineDown 1 l (self st).
Proof.
  intros Hwf Hin.
  assert (Hkey : _getKey st = (Return DOWN, with_stdin rest st)).
  { apply _getKey_known; [repeat constructor|done]. }
  destruct (read_body_effect DOWN (with_stdin rest st)) as (res & r' & out & Hbody & Heff);
    [apply Hwf|].
  apply key_effect_DOWN in Heff as (l & Hget & -> & ->).
  eexists _, l. split; [exists (with_stdin rest st); by repeat split|]. by repeat split.
Qed.

(** After "ab" and ArrowLeft the cursor is at 1; ArrowUp, with the active
    index already at the oldest entry, moves it to 2.  With the history
    ["foo"], ArrowUp and "x" leave the buffer "foox" at the oldest entry; a
    second ArrowUp replaces it by "foo". *)
Lemma arrow_at_end_is_no_noop :
  let '(_, _, _, r0) := getLine (mkInput [] false) [] (mkTty (lit "ab" ++ LEFT) []) in
  let '(_, _, _, r1) := getLine (mkInput [] false) [] (mkTty (lit "ab" ++ LEFT ++ UP) []) in
  let '(_, _, _, r2) := getLine (mkInput [lit "foo"] false) [] (mkTty (UP ++ lit "x") []) in
  let '(_, _, _, r3) := getLine (mkInput [lit "foo"] false) [] (mkTty (UP ++ lit "x" ++ UP) []) in
  (lineIdx r0 = 0 /\ charIdx r0 = 1 /\ lineIdx r1 = 0 /\ charIdx r1 = 2) /\
  (lineIdx r2 = 0 /\ line r2 = lit "foox" /\ lineIdx r3 = 0 /\ line r3 = lit "foo").
Proof. vm_compute. by repeat split. Qed.

(** C4, amended.  ArrowUp when the active index is already the oldest
    entry, and ArrowDown when it is already the newest, leave the active
    index and the history unchanged; the buffer is loaded again from the
    entry at the active index and the cursor is put at the end of the line.
    For ArrowDown at the newest entry that entry is the buffer, so the
    content of the buffer is unchanged. *)
Theorem arrow_at_end_reloads pastLines prompt debug t ks st rest :
  steps (start pastLines prompt debug t) ks st ->
  (lineIdx (self st) = 0 -> stdin st = UP ++ rest ->
   exists st' l,
     loop_step UP st st' /\ getitem (lines (self st)) 0 = Some l /\
     lineIdx (self st') = lineIdx (self st) /\ lines (self st') = lines (self st) /\
     line (self st') = l /\ charIdx (self st') = len l /\
     (line (self st) = l -> charIdx (self st) = len l -> self st' = self st)) /\
  (lineIdx (self st) = len (lines (self st)) - 1 -> stdin st = DOWN ++ rest ->
   exists st',
     loop_step DOWN st st' /\
     lineIdx (self st') = lineIdx (self st) /\ lines (self st') = lines (self st) /\
     line (self st') = line (self st) /\ charIdx (self st') = len (line (self st)) /\
     (charIdx (self st) = len (line (self st)) -> self st' = self st)).
Proof.
  intros Hsteps.
  assert (Hwf : wf (self st)) by apply (steps_wf _ _ _ Hsteps), wf_start.
  pose proof (len_pos _ (wf_lines _ Hwf)) as Hpos.
  split.
  - intros Hidx Hin. destruct (loop_step_UP st rest Hwf Hin) as (st' & l & Hstep & _ & Hget & Hself).
    exists st', l. rewrite Hself. simpl.
    assert (Hb : _bound (lineIdx (self st) + -1) (Some 0) (Some (len (lines (self st)) - 1)) = 0).
    { unfold _bound. lia. }
    rewrite Hb in Hget |- *. repeat split; try done.
    intros Hl Hc. unfold after_moveLineDown. rewrite Hb, <- Hc, <- Hl, <- Hidx.
    by destruct (self st).
  - intros Hidx Hin. destruct (loop_step_DOWN st rest Hwf Hin) as (st' & l & Hstep & _ & Hget & Hself).
    exists st'. rewrite Hself. simpl.
    assert (Hb : _bound (lineIdx (self st) + 1) (Some 0) (Some (len (lines (self st)) - 1))
                 = len (lines (self st)) - 1).
    { unfold _bound. lia. }
    rewrite Hb in Hget |- *.
    rewrite (getitem_last _ _ (wf_newest _ Hwf Hidx)) in Hget. injection Hget as <-.
    repeat split; try done.
    intros Hc. unfold after_moveLineDown. rewrite Hb, <- Hc, <- Hidx.
    by destruct (self st).
Qed.

Lemma arrow_at_end_reloads_witness :
  let s0 := start [] [] false (mkTty (lit "ab" ++ LEFT ++ DOWN) []) in
  let ks := [lit "a"; lit "b"; LEFT] in
  steps s0 ks (after_keys ks s0) /\
  lineIdx (self (after_keys ks s0)) = len (lines (self (after_keys ks s0))) - 1 /\
  stdin (after_keys ks s0) = DOWN ++ [] /\
  exists st', loop_step DOWN (after_keys ks s0) st' /\
              line (self st') = line (self (after_keys ks s0)).
Proof.
  intros s0 ks.
  assert (Hsteps : steps s0 ks (after_keys ks s0)).
  { apply after_keys_steps. vm_compute. by eexists. }
  assert (Hidx : lineIdx (self (after_keys ks s0)) = len (lines (self (after_keys ks s0))) - 1)
    by (vm_compute; reflexivity).
  assert (Hin : stdin (after_keys ks s0) = DOWN ++ []) by (vm_compute; reflexivity).
  split; [exact Hsteps|]. split; [exact Hidx|]. split; [exact Hin|].
  destruct (proj2 (arrow_at_end_reloads _ _ _ _ _ _ [] Hsteps) Hidx Hin)
    as (st' & Hstep & _ & _ & Hline & _).
  exists st'. by split.
Defined.

Example history_up_twice :
  option_map (fun st => (line (self st), charIdx (self st), lineIdx (self st)))
    (run_keys [UP; UP] (start [lit "foo"] [] false (mkTty (UP ++ UP) [])))
  = Some (lit "foo", 3, 0).
Proof. vm_compute. reflexivity. Qed.

(** C5.  Whatever the session has handled, while the active index is the
    newest entry the text in the buffer is what that entry holds (every
    editing key stored it there at once).  ArrowUp takes the reader away
    from it: the active index goes one entry back (it stays at 0 when the
    newest entry is the only one), the buffer is replaced by the entry at
    that index and the cursor is put at its end.  ArrowDown then brings
    exactly the text of before back into the buffer, with the cursor at its
    end and the active index on the newest entry again.  The history is
    untouched throughout. *)
Theorem up_then_down_restores pastLines prompt debug t ks st rest :
  steps (start pastLines prompt debug t) ks st ->
  lineIdx (self st) = len (lines (self st)) - 1 ->
  stdin st = UP ++ DOWN ++ rest ->
  last (lines (self st)) = Some (line (self st)) /\
  exists st1 st2,
    loop_step UP st st1 /\ loop_step DOWN st1 st2 /\
    (lineIdx (self st1) = Z.max 0 (lineIdx (self st) - 1) /\
     getitem (lines (self st)) (lineIdx (self st1)) = Some (line (self st1)) /\
     charIdx (self st1) = len (line (self st1)) /\
     lines (self st1) = lines (self st) /\
     stdin st1 = DOWN ++ rest) /\
    line (self st2) = line (self st) /\
    charIdx (self st2) = len (line (self st)) /\
    lineIdx (self st2) = lineIdx (self st) /\
    lines (self st2) = lines (self st) /\
    stdin st2 = rest.
Proof.
  intros Hsteps Hidx Hin.
  assert (Hwf : wf (self st)) by apply (steps_wf _ _ _ Hsteps), wf_start.
  pose proof (len_pos _ (wf_lines _ Hwf)) as Hpos.
  split; [by apply Hwf|].
  destruct (loop_step_UP st (DOWN ++ rest) Hwf Hin) as (st1 & l1 & Hstep1 & Hin1 & Hget1 & Hself1).
  assert (Hwf1 : wf (self st1)) by by apply (loop_step_wf UP st).
  destruct (loop_step_DOWN st1 rest Hwf1 Hin1) as (st2 & l2 & Hstep2 & Hin2 & Hget2 & Hself2).
  exists st1, st2. rewrite Hself2, Hself1 in *. simpl in *.
  assert (Hup : _bound (lineIdx (self st) + -1) (Some 0) (Some (len (lines (self st)) - 1))
                = Z.max 0 (lineIdx (self st) - 1)).
  { unfold _bound. lia. }
  assert (Hb : _bound (Z.max 0 (lineIdx (self st) - 1) + 1)
                 (Some 0) (Some (len (lines (self st)) - 1)) = len (lines (self st)) - 1).
  { unfold _bound. lia. }
  rewrite Hup in *. rewrite Hb in Hget2 |- *.
  rewrite (getitem_last _ _ (wf_newest _ Hwf Hidx)) in Hget2. injection Hget2 as <-.
  by repeat split.
Qed.

Lemma up_then_down_restores_witness :
  let s0 := start [lit "foo"] [] false (mkTty (lit "ab" ++ UP ++ DOWN ++ lit "c") []) in
  let ks := [lit "a"; lit "b"] in
  steps s0 ks (after_keys ks s0) /\
  lineIdx (self (after_keys ks s0)) = len (lines (self (after_keys ks s0))) - 1 /\
  stdin (after_keys ks s0) = UP ++ DOWN ++ lit "c" /\
  line (self (after_keys ks s0)) = lit "ab" /\
  exists st1 st2,
    loop_step UP (after_keys ks s0) st1 /\ loop_step DOWN st1 st2 /\
    lineIdx (self st1) = 0 /\ line (self st1) = lit "foo" /\
    lineIdx (self st2) = 1 /\ line (self st2) = lit "ab".
Proof.
  intros s0 ks.
  assert (Hsteps : steps s0 ks (after_keys ks s0)).
  { apply after_keys_steps. vm_compute. by eexists. }
  assert (Hidx : lineIdx (self (after_keys ks s0)) = len (lines (self (after_keys ks s0))) - 1)
    by (vm_compute; reflexivity).
  assert (Hin : stdin (after_keys ks s0) = UP ++ DOWN ++ lit "c") by (vm_compute; reflexivity).
  split; [exact Hsteps|]. split; [exact Hidx|]. split; [exact Hin|].
  split; [vm_compute; reflexivity|].
  destruct (up_then_down_restores _ _ _ _ _ _ _ Hsteps Hidx Hin)
    as (_ & st1 & st2 & Hstep1 & Hstep2 & (Hidx1 & Hget1 & _) & Hline2 & _ & Hidx2 & _).
  exists st1, st2. rewrite Hidx1 in Hget1.
  split; [exact Hstep1|]. split; [exact Hstep2|].
  split; [rewrite Hidx1; vm_compute; reflexivity|].
  split; [vm_compute in Hget1; by injection Hget1|].
  split; [rewrite Hidx2; vm_compute; reflexivity|].
  rewrite Hline2. vm_compute. reflexivity.
Defined.

(** ** C6: which character is Enter *)

Lemma key_effect_plain c r res r' :
  [c] <> ESCAPE -> [c] <> BACKSPACE -> [c] <> INTERRUPT -> [c] <> EOF ->
  key_effect [c] r res r' ->
  res = Return tt /\ r' = after_store_line (after_insertChar [c] r).
Proof.
  intros Hesc Hbs Hint Heof.
  inversion 1 as [l ?|l ?|?|?|?|?|?|?|?|k' Heq|c' k' Heq Hc]; try done.
  by injection Heq as ->.
Qed.

(** The newline character is put into the line: a session fed "a" and a
    newline still waits for a key, with the newline in its buffer, and
    Enter then returns a line that contains it. *)
Lemma newline_is_inserted :
  let '(res1, _, _, r1) := getLine (mkInput [] false) [] (mkTty (lit "a" ++ [LF]) []) in
  let '(res2, _, _, _) := getLine (mkInput [] false) [] (mkTty (lit "a" ++ [LF] ++ CR) []) in
  res1 = Blocked /\ line r1 = lit "a" ++ [LF] /\ res2 = Return (lit "a" ++ [LF]).
Proof. vm_compute. by repeat split. Qed.

(** C6, amended.  Only the carriage return is Enter.  When it is the next
    character, after whatever keys the session has handled, the session is
    accepted and returns the line.  The newline character is decoded as an
    ordinary key: it is inserted into the line at the cursor and the loop
    goes on. *)
Theorem only_carriage_return_is_enter pastLines prompt debug t ks st rest :
  steps (start pastLines prompt debug t) ks st ->
  (stdin st = CR ++ rest ->
   exists st', session pastLines prompt debug t = (Return (line (self st)), st')) /\
  (stdin st = LF :: rest ->
   exists st',
     loop_step [LF] st st' /\
     line (self st') =
       slice_to (line (self st)) (charIdx (self st)) ++ [LF] ++
       slice_from (line (self st)) (charIdx (self st)) /\
     charIdx (self st') = charIdx (self st) + 1 /\
     stdin st' = rest).
Proof.
  intros Hsteps.
  assert (Hwf : wf (self st)) by apply (steps_wf _ _ _ Hsteps), wf_start.
  split.
  - intros Hin.
    assert (Hkey : _getKey st = (Return CR, with_stdin rest st))
      by by apply (_getKey_plain "013"%char).
    eexists. apply (session_run _ _ _ _ ks st); [done|]. by eapply end_accept.
  - intros Hin.
    assert (Hkey : _getKey st = (Return [LF], with_stdin rest st)) by by apply _getKey_plain.
    destruct (read_body_effect [LF] (with_stdin rest st)) as (res & r' & out & Hbody & Heff);
      [apply Hwf|].
    apply key_effect_plain in Heff as [-> ->]; try done.
    eexists. split; [exists (with_stdin rest st); by repeat split|]. by repeat split.
Qed.

Lemma only_carriage_return_is_enter_witness :
  let s0 := start [] [] false (mkTty (lit "a" ++ [LF] ++ lit "b") []) in
  let ks := [lit "a"] in
  steps s0 ks (after_keys ks s0) /\ stdin (after_keys ks s0) = LF :: lit "b" /\
  exists st', loop_step [LF] (after_keys ks s0) st' /\ stdin st' = lit "b".
Proof.
  intros s0 ks.
  assert (Hsteps : steps s0 ks (after_keys ks s0)).
  { apply after_keys_steps. vm_compute. by eexists. }
  assert (Hin : stdin (after_keys ks s0) = LF :: lit "b") by (vm_compute; reflexivity).
  split; [exact Hsteps|]. split; [exact Hin|].
  destruct (proj2 (only_carriage_return_is_enter _ _ _ _ _ _ _ Hsteps) Hin)
    as (st' & Hstep & _ & _ & Hrest).
  exists st'. by split.
Defined.

(** ** C7: interrupt and end of input *)

(** After the escape character, the interrupt character cannot start or
    continue an escape sequence: whatever follows, [_getKey] reads on to the
    end of the input and is still waiting. *)
Lemma escape_then_interrupt_blocks st rest :
  stdin st = ESCAPE ++ INTERRUPT ++ rest -> _getKey st = (Blocked, with_stdin [] st).
Proof.
  intros Hin. unfold _getKey, bind.
  rewrite (_getChar_cons "027"%char (INTERRUPT ++ rest)) by done. cbv beta iota.
  destruct (decide _) as [_|Hne]; [|done].
  destruct (_getKey_loop_inv (S (length (stdin (with_stdin (INTERRUPT ++ rest) st))))
              ["027"%char] (with_stdin (INTERRUPT ++ rest) st))
    as [(extra & rest' & Heq & Hm & _)|[_ Hrun]]; [lia| |done].
  exfalso. simpl in Heq. destruct extra as [|c extra]; [done|].
  injection Heq as <- _.
  change (["027"%char] ++ "003"%char :: extra) with (["027"%char; "003"%char] ++ extra) in Hm.
  by rewrite dead_prefix_never_matches in Hm.
Qed.

(** An interrupt character that follows the escape character raises
    nothing: the decoder takes it, and all that follows, for an escape
    sequence that never ends.  Without the escape character the same input
    raises [KeyboardInterrupt]. *)
Lemma interrupt_inside_escape_is_swallowed :
  let '(res1, _, t1, _) :=
    getLine (mkInput [] false) [] (mkTty (lit "ab" ++ ESCAPE ++ INTERRUPT ++ lit "cd" ++ CR) []) in
  let '(res2, _, _, _) :=
    getLine (mkInput [] false) [] (mkTty (lit "ab" ++ INTERRUPT ++ lit "cd" ++ CR) []) in
  res1 = Blocked /\ tty_in t1 = [] /\ res2 = Raise KeyboardInterrupt.
Proof. vm_compute. by repeat split. Qed.

Lemma key_effect_INTERRUPT r res r' :
  key_effect INTERRUPT r res r' -> res = Raise KeyboardInterrupt /\ r' = r.
Proof.
  inversion 1 as [l ?|l ?|?|?|?|?|?|?|?|k' Heq|c' k' Heq Hc ? Hint]; try done.
Qed.

Lemma key_effect_EOF r res r' :
  key_effect EOF r res r' -> res = Raise EOFError /\ r' = r.
Proof.
  inversion 1 as [l ?|l ?|?|?|?|?|?|?|?|k' Heq|c' k' Heq Hc ? ? Heof]; try done.
Qed.

(** What the interrupt character does at the beginning of a key and inside
    an escape sequence is stated further down, once the forms of the escape
    sequences are at hand. *)

(** ** C8: a session that ends in an error *)

(** [last_edit st0 st text]: the loop, started in [st0], has reached [st],
    and [text] is the line as the latest key other than an arrow left it,
    or the line of [st0] when there was no such key: the text edited so
    far. *)
Inductive last_edit (st0 : state) : state -> str -> Prop :=
| last_edit_start : last_edit st0 st0 (line (self st0))
| last_edit_key st text k st' :
    last_edit st0 st text -> loop_step k st st' -> k ∉ _arrowKeys ->
    last_edit st0 st' (line (self st'))
| last_edit_arrow st text k st' :
    last_edit st0 st text -> loop_step k st st' -> k ∈ _arrowKeys ->
    last_edit st0 st' text.

Lemma steps_last_edit st0 ks st : steps st0 ks st -> exists text, last_edit st0 st text.
Proof.
  induction 1 as [|ks st1 k st2 _ [text IH] Hstep].
  - eexists. constructor.
  - destruct (decide (k ∈ _arrowKeys)).
    + exists text. by eapply last_edit_arrow.
    + eexists. by eapply last_edit_key.
Qed.

(** The text edited so far is what the newest entry holds. *)
Lemma last_edit_stored st0 st text :
  last_edit st0 st text -> wf (self st0) -> last (lines (self st0)) = Some (line (self st0)) ->
  wf (self st) /\ last (lines (self st)) = Some text.
Proof.
  intros Hedit Hwf0 Hlast0.
  induction Hedit as [|st text k st' _ [Hwf IH] Hstep Hk|st text k st' _ [Hwf IH] Hstep Hk]; [done|..];
    destruct (loop_step_effect _ _ _ Hstep) as (Heff & _); try apply Hwf;
    (split; [by apply (key_effect_wf _ _ _ _ Heff)|]).
  - apply (key_effect_edit _ _ _ Heff); [apply Hwf|done].
  - by rewrite (key_effect_arrow _ _ _ _ Heff).
Qed.

Lemma key_effect_raised k r e r' :
  key_effect k r (Raise e) r' -> k <> [] ->
  e = KeyboardInterrupt \/ e = EOFError \/ exists msg, e = Exception msg.
Proof. inversion 1; intros Hk; subst; eauto. done. Qed.

Example interrupt_after_up :
  run [lit "foo"] (lit "ab" ++ UP ++ INTERRUPT) = (Raise KeyboardInterrupt, [lit "foo"; lit "ab"]).
Proof. vm_compute. reflexivity. Qed.

(** C8.  When a session ends by raising (the interrupt character, the
    end-of-input character or an escape sequence the editor does not know;
    nothing else makes it raise), the history the [Input] owns is the
    history from before the session followed by one entry, and that entry
    holds the text edited so far: the line as the latest editing key left
    it, the empty line when there was none.  It is the line of the buffer
    whenever the active index is the newest entry. *)
Theorem error_keeps_appended_entry i prompt t e i' t' r' :
  getLine i prompt t = (Raise e, i', t', r') ->
  exists st text,
    last_edit (start (Input_lines i) prompt (Input_debug i) t) st text /\
    r' = self st /\
    Input_lines i' = Input_lines i ++ [text] /\
    length (Input_lines i') = S (length (Input_lines i)) /\
    (lineIdx r' = len (lines r') - 1 -> text = line r') /\
    (e = KeyboardInterrupt \/ e = EOFError \/ exists msg, e = Exception msg).
Proof.
  rewrite getLine_session.
  destruct (session_outcome (Input_lines i) prompt (Input_debug i) t)
    as (ks & st & res & st' & Hsteps & Hend & ->).
  intros [= -> <- <- <-].
  inversion Hend as [|k st1 e' st'' Hkey Hcr Hbody|]; subst.
  destruct (steps_last_edit _ _ _ Hsteps) as [text Hedit].
  destruct (last_edit_stored _ _ _ Hedit) as [Hwf Hlast];
    [apply wf_start|simpl; by rewrite last_snoc|].
  apply _getKey_Return in Hkey as (Hk & _ & Hself & _).
  destruct (read_body_effect k st1) as (res & r' & out & Hrun & Heff);
    [rewrite Hself; apply Hwf|].
  rewrite Hrun in Hbody. injection Hbody as -> <-.
  pose proof (key_effect_raised _ _ _ _ Heff Hk) as He.
  apply key_effect_raise in Heff as ->. simpl. rewrite Hself.
  destruct (steps_past _ _ _ _ _ _ Hsteps) as [x Hx].
  assert (x = text) as -> by (rewrite Hx, last_snoc in Hlast; by injection Hlast).
  exists st, text. repeat split; try done.
  - rewrite Hx, length_app. simpl. lia.
  - intros Hnew. pose proof (wf_newest _ Hwf Hnew) as Hl. rewrite Hlast in Hl. by injection Hl.
Qed.

Lemma error_keeps_appended_entry_witness :
  let out := getLine (mkInput [lit "foo"] false) [] (mkTty (lit "ab" ++ UP ++ INTERRUPT) []) in
  out = (Raise KeyboardInterrupt, out.1.1.2, out.1.2, out.2) /\
  exists text, Input_lines out.1.1.2 = [lit "foo"] ++ [text].
Proof.
  intros out.
  assert (Hout : out = (Raise KeyboardInterrupt, out.1.1.2, out.1.2, out.2))
    by (vm_compute; reflexivity).
  split; [exact Hout|].
  destruct (error_keeps_appended_entry _ _ _ _ _ _ _ Hout) as (st & text & _ & _ & Hlines & _).
  by exists text.
Defined.

(** ** C9: a reader is used once *)

(** [m] never clears the mark [used]. *)
Definition keeps_used {A} (m : M A) : Prop :=
  forall st, used (self st) = true -> used (self (snd (m st))) = true.

Create HintDb keeps.

Lemma keeps_ret {A} (a : A) : keeps_used (ret a).
Proof. by intros st. Qed.

Lemma keeps_raise {A} e : keeps_used (@raise A e).
Proof. by intros st. Qed.

Lemma keeps_getSelf : keeps_used getSelf.
Proof. by intros st. Qed.

Lemma keeps_print s : keeps_used (print s).
Proof. by intros st. Qed.

Lemma keeps_getChar n : keeps_used (_getChar n).
Proof. intros st H. unfold _getChar. by case_match. Qed.

Lemma keeps_modify f :
  (forall r, used r = true -> used (f r) = true) -> keeps_used (modify f).
Proof. intros Hf st H. by apply Hf. Qed.

Lemma keeps_bind {A B} (m : M A) (k : A -> M B) :
  keeps_used m -> (forall a, keeps_used (k a)) -> keeps_used (bind m k).
Proof.
  intros Hm Hk st H. unfold bind. specialize (Hm st H).
  destruct (m st) as [[a|e| |] st1]; simpl in *; try done. by apply Hk.
Qed.

Lemma keeps_gas {A} (f : nat -> M A) (g : state -> nat) :
  (forall n, keeps_used (f n)) -> keeps_used (fun st => f (g st) st).
Proof. intros Hf st H. by apply Hf. Qed.

#[local] Hint Resolve keeps_ret keeps_raise keeps_getSelf keeps_print keeps_getChar : keeps.

Ltac keeps :=
  repeat first
    [ progress auto with keeps
    | apply keeps_bind; [|intros ?]
    | apply keeps_modify; intros ? ?; done
    | apply keeps_gas; intros ?
    | case_match ].

Lemma keeps_moveCursorRight d : keeps_used (_moveCursorRight d).
Proof. unfold _moveCursorRight. keeps. Qed.

Lemma keeps_resetLineAndCursor : keeps_used _resetLineAndCursor.
Proof. unfold _resetLineAndCursor, _resetLine. pose proof keeps_moveCursorRight. keeps. Qed.

Lemma keeps_getKey_loop gas k : keeps_used (_getKey_loop gas k).
Proof. revert k. induction gas; intros k; simpl; keeps. Qed.

Lemma keeps_getKey : keeps_used _getKey.
Proof.
  unfold _getKey. apply keeps_bind; [apply keeps_getChar|]. intros k.
  case_match; [|apply keeps_ret]. intros st Hu. by apply keeps_getKey_loop.
Qed.

Lemma keeps_store_line : keeps_used store_line.
Proof. unfold store_line. keeps. Qed.

Lemma keeps_read_body k : keeps_used (read_body k).
Proof.
  pose proof keeps_moveCursorRight. pose proof keeps_resetLineAndCursor.
  pose proof keeps_store_line.
  unfold read_body, moveLineDown, moveCharRight, doBackspace, doDelete, insertChar,
    _printHex, println.
  keeps.
Qed.

Lemma keeps_read_loop gas : keeps_used (read_loop gas).
Proof.
  pose proof keeps_getKey. pose proof keeps_read_body. pose proof keeps_store_line.
  induction gas; simpl; [by intros st|]. unfold println. keeps.
Qed.

(** A reader that is marked as used refuses to read: nothing is printed
    and nothing is taken from the input. *)
Lemma read_used st :
  used (self st) = true ->
  read st = (Raise (Exception (lit "using line reader multiple times")), st).
Proof. intros Hu. unfold read, _use, bind, getSelf. cbv beta iota. by rewrite Hu. Qed.

Example read_twice :
  let st1 := snd (read (mkState (init [] (lit "> ") false) (lit "ab" ++ CR ++ lit "cd" ++ CR) [])) in
  stdin st1 = lit "cd" ++ CR /\
  read st1 = (Raise (Exception (lit "using line reader multiple times")), st1).
Proof. vm_compute. by split. Qed.

(** C9.  For every reader, in whatever state, and every input: [read]
    leaves the reader marked as used, however it ends, and every later
    [read] of that reader raises the usage error and starts no session: it
    prints nothing, takes nothing from the input and leaves the reader as it
    is. *)
Theorem second_read_is_usage_error (st : state) :
  used (self (snd (read st))) = true /\
  forall tin tout,
    read (mkState (self (snd (read st))) tin tout) =
    (Raise (Exception (lit "using line reader multiple times")),
     mkState (self (snd (read st))) tin tout).
Proof.
  assert (Hused : used (self (snd (read st))) = true).
  { destruct (used (self st)) eqn:Hu.
    - by rewrite read_used.
    - rewrite read_unused by done. by apply keeps_read_loop. }
  split; [done|]. intros tin tout. by apply read_used.
Qed.

(** * Further properties of the code *)

(** ** The language of [ESCAPE_SEQ] *)

(** [matches r s]: the text [s] is in the language of [r]. *)
Inductive matches : Regex.t -> str -> Prop :=
| matches_eps : matches Regex.Eps []
| matches_range lo hi c : Regex.in_range lo hi c = true -> matches (Regex.Range lo hi) [c]
| matches_alt_l r1 r2 s : matches r1 s -> matches (Regex.Alt r1 r2) s
| matches_alt_r r1 r2 s : matches r2 s -> matches (Regex.Alt r1 r2) s
| matches_seq r1 r2 s1 s2 :
    matches r1 s1 -> matches r2 s2 -> matches (Regex.Seq r1 r2) (s1 ++ s2)
| matches_star_nil r : matches (Regex.Star r) []
| matches_star_cons r s1 s2 :
    matches r s1 -> matches (Regex.Star r) s2 -> matches (Regex.Star r) (s1 ++ s2).

Lemma nullable_matches r : Regex.nullable r = true <-> matches r [].
Proof.
  split.
  - induction r as [| |lo hi|r1 IH1 r2 IH2|r1 IH1 r2 IH2|r IH]; simpl; try done.
    + intros _. constructor.
    + intros [H|H]%orb_true_iff; [apply matches_alt_l|apply matches_alt_r]; auto.
    + intros [H1 H2]%andb_true_iff. apply (matches_seq r1 r2 [] []); auto.
    + intros _. constructor.
  - intros H. remember [] as s eqn:Hs.
    induction H as [|lo hi c H|r1 r2 s H IH|r1 r2 s H IH|r1 r2 s1 s2 H1 IH1 H2 IH2| |r s1 s2 H1 IH1 H2 IH2];
      simpl; try done.
    + by rewrite IH.
    + rewrite IH by done. apply orb_true_r.
    + apply app_eq_nil in Hs as [-> ->]. by rewrite IH1, IH2.
Qed.

(** A text of a starred expression that begins with [c] begins with a text
    of the expression that begins with [c]. *)
Lemma matches_star_head r c s :
  matches (Regex.Star r) (c :: s) ->
  exists s1 s2, s = s1 ++ s2 /\ matches r (c :: s1) /\ matches (Regex.Star r) s2.
Proof.
  intros H. remember (Regex.Star r) as r' eqn:Hr. remember (c :: s) as x eqn:Hx.
  revert s Hx.
  induction H as [|lo hi c' H|r1 r2 s' H IH|r1 r2 s' H IH|r1 r2 s1 s2 H1 IH1 H2 IH2| |r0 s1 s2 H1 IH1 H2 IH2];
    intros s Hx; try done.
  injection Hr as ->. destruct s1 as [|c1 s1].
  - simpl in Hx. by apply IH2.
  - simpl in Hx. injection Hx as -> <-. by exists s1, s2.
Qed.

Lemma deriv_matches c r s : matches (Regex.deriv c r) s <-> matches r (c :: s).
Proof.
  revert s. induction r as [| |lo hi|r1 IH1 r2 IH2|r1 IH1 r2 IH2|r IH]; intros s; simpl.
  - split; inversion 1.
  - split; inversion 1.
  - destruct (Regex.in_range lo hi c) eqn:Hc; split; inversion 1; subst.
    + by constructor.
    + constructor.
    + congruence.
  - split.
    + inversion 1; subst; [apply matches_alt_l, IH1|apply matches_alt_r, IH2]; done.
    + inversion 1; subst; [apply matches_alt_l, IH1|apply matches_alt_r, IH2]; done.
  - assert (Hseq : forall s, matches (Regex.Seq (Regex.deriv c r1) r2) s ->
                             matches (Regex.Seq r1 r2) (c :: s)).
    { intros s0. inversion 1 as [| | | |? ? s1 s2 H1 H2| |]; subst.
      apply IH1 in H1. by apply (matches_seq r1 r2 (c :: s1) s2). }
    split.
    + destruct (Regex.nullable r1) eqn:Hn; [|by apply Hseq].
      inversion 1; subst; [by apply Hseq|].
      apply (matches_seq r1 r2 [] (c :: s)); [by apply nullable_matches|by apply IH2].
    + inversion 1 as [| | | |? ? s1 s2 H1 H2| |]; subst.
      match goal with H : _ ++ _ = _ :: _ |- _ => rename H into Heq end.
      destruct s1 as [|c1 s1].
      * simpl in Heq. subst s2. apply nullable_matches in H1. rewrite H1.
        apply matches_alt_r. by apply IH2.
      * simpl in Heq. injection Heq as -> <-. apply IH1 in H1.
        pose proof (matches_seq _ _ _ _ H1 H2) as Hs.
        destruct (Regex.nullable r1); [by apply matches_alt_l|done].
  - split.
    + inversion 1 as [| | | |? ? s1 s2 H1 H2| |]; subst. apply IH in H1.
      by apply (matches_star_cons r (c :: s1) s2).
    + intros (s1 & s2 & -> & H1 & H2)%matches_star_head. apply IH in H1.
      by constructor.
Qed.

(** The derivative matcher decides the language. *)
Lemma fullmatch_matches r s : Regex.fullmatch r s = true <-> matches r s.
Proof.
  unfold Regex.fullmatch. revert r. induction s as [|c s IH]; intros r; simpl.
  - apply nullable_matches.
  - unfold Regex.derivs in IH. rewrite IH. apply deriv_matches.
Qed.

(** The classes of characters of [ESCAPE_SEQ]. *)
Definition is_Fe (c : ascii) : bool := Regex.in_range "@" "Z" c || Regex.in_range "\" "_" c.
Definition is_param (c : ascii) : bool := Regex.in_range "0" "?" c.
Definition is_inter (c : ascii) : bool := Regex.in_range " " "/" c.
Definition is_final (c : ascii) : bool := Regex.in_range "@" "~" c.

(** The two forms of an escape sequence: the escape character and one
    character of [[@-Z\\-_]], or the escape character, an opening bracket,
    parameter characters, intermediate characters and a final character. *)
Inductive escape_shape : str -> Prop :=
| shape_two c : is_Fe c = true -> escape_shape ["027"%char; c]
| shape_csi ps ints f :
    Forall (fun c => is_param c = true) ps ->
    Forall (fun c => is_inter c = true) ints ->
    is_final f = true ->
    escape_shape ("027"%char :: "["%char :: ps ++ ints ++ [f]).

Lemma in_range_single a c : Regex.in_range a a c = true -> c = a.
Proof.
  unfold Regex.in_range. intros [H1 H2]%andb_true_iff.
  apply N.leb_le in H1, H2.
  rewrite <- (ascii_N_embedding c), <- (ascii_N_embedding a). f_equal. lia.
Qed.

Lemma matches_range_inv lo hi s :
  matches (Regex.Range lo hi) s -> exists c, s = [c] /\ Regex.in_range lo hi c = true.
Proof. inversion 1; subst. by eexists. Qed.

Lemma matches_chr_inv a s : matches (Regex.Chr a) s -> s = [a].
Proof. intros (c & -> & Hc)%matches_range_inv. by apply in_range_single in Hc as ->. Qed.

Lemma matches_seq_inv r1 r2 s :
  matches (Regex.Seq r1 r2) s -> exists s1 s2, s = s1 ++ s2 /\ matches r1 s1 /\ matches r2 s2.
Proof. inversion 1; subst. by eexists _, _. Qed.

Lemma matches_alt_inv r1 r2 s : matches (Regex.Alt r1 r2) s -> matches r1 s \/ matches r2 s.
Proof. inversion 1; subst; auto. Qed.

Lemma matches_star_range lo hi s :
  matches (Regex.Star (Regex.Range lo hi)) s <-> Forall (fun c => Regex.in_range lo hi c = true) s.
Proof.
  split.
  - intros H. remember (Regex.Star (Regex.Range lo hi)) as r eqn:Hr.
    induction H as [| | | | | |r0 s1 s2 H1 _ H2 IH2]; try done.
    injection Hr as ->. apply matches_range_inv in H1 as (c & -> & Hc).
    constructor; [done|]. by apply IH2.
  - induction 1 as [|c s Hc _ IH]; [constructor|].
    apply (matches_star_cons _ [c] s); [by constructor|done].
Qed.

Lemma matches_chr a : matches (Regex.Chr a) [a].
Proof.
  constructor. unfold Regex.in_range. by rewrite N.leb_refl.
Qed.

(** [ESCAPE_SEQ] matches the escape sequences of the two forms, and these
    followed by one newline. *)
Lemma ESCAPE_SEQ_language k :
  ESCAPE_SEQ_match k = true <->
  escape_shape k \/ exists body, k = body ++ [LF] /\ escape_shape body.
Proof.
  unfold ESCAPE_SEQ_match. rewrite fullmatch_matches. unfold ESCAPE_SEQ. split.
  - intros (s1 & s2 & -> & H1 & H2)%matches_seq_inv.
    assert (Hshape : escape_shape s1).
    { apply matches_seq_inv in H1 as (t1 & t2 & -> & Hesc & Hrest).
      apply matches_chr_inv in Hesc as ->.
      apply matches_alt_inv in Hrest as [Hfe|Hcsi].
      - assert (exists c, t2 = [c] /\ is_Fe c = true) as (c & -> & Hc).
        { apply matches_alt_inv in Hfe as [(c & -> & Hc)%matches_range_inv|(c & -> & Hc)%matches_range_inv];
            exists c; (split; [done|]); unfold is_Fe; rewrite Hc; [done|apply orb_true_r]. }
        by constructor.
      - apply matches_seq_inv in Hcsi as (u1 & u2 & -> & Hbr & Hcsi).
        apply matches_chr_inv in Hbr as ->.
        apply matches_seq_inv in Hcsi as (ps & v2 & -> & Hps & Hcsi).
        apply matches_seq_inv in Hcsi as (ints & w2 & -> & Hints & Hf).
        apply matches_range_inv in Hf as (f & -> & Hf).
        apply matches_star_range in Hps, Hints.
        by apply (shape_csi ps ints f). }
    apply matches_alt_inv in H2 as [Heps|Hlf].
    + inversion Heps; subst. rewrite app_nil_r. by left.
    + apply matches_chr_inv in Hlf as ->. right. by exists s1.
  - assert (Hshape : forall body, escape_shape body ->
      matches (Regex.Seq (Regex.Chr "027")
         (Regex.Alt
            (Regex.Alt (Regex.Range "@" "Z") (Regex.Range "\" "_"))
            (Regex.Seq (Regex.Chr "[")
               (Regex.Seq (Regex.Star (Regex.Range "0" "?"))
                  (Regex.Seq (Regex.Star (Regex.Range " " "/")) (Regex.Range "@" "~")))))) body).
    { intros body [c Hc|ps ints f Hps Hints Hf].
      - apply (matches_seq _ _ ["027"%char] [c]); [apply matches_chr|].
        apply matches_alt_l. unfold is_Fe in Hc. apply orb_true_iff in Hc as [Hc|Hc];
          [apply matches_alt_l|apply matches_alt_r]; by constructor.
      - apply (matches_seq _ _ ["027"%char] ("["%char :: ps ++ ints ++ [f])); [apply matches_chr|].
        apply matches_alt_r.
        apply (matches_seq _ _ ["["%char] (ps ++ ints ++ [f])); [apply matches_chr|].
        apply matches_seq; [by apply matches_star_range|].
        apply matches_seq; [by apply matches_star_range|]. by constructor. }
    intros [H|(body & -> & H)].
    + rewrite <- (app_nil_r k). apply matches_seq; [by apply Hshape|].
      apply matches_alt_l. constructor.
    + apply matches_seq; [by apply Hshape|]. apply matches_alt_r, matches_chr.
Qed.

(** ** The keys the decoder returns *)

Ltac char_codes :=
  repeat match goal with
         | |- context [N_of_ascii (Ascii ?a ?b ?c ?d ?e ?f ?g ?h)] =>
             let v := eval vm_compute in (N_of_ascii (Ascii a b c d e f g h)) in
             change (N_of_ascii (Ascii a b c d e f g h)) with v
         end.

(** Settles a goal about the classes of a character by arithmetic on its
    code. *)
Ltac class_arith :=
  unfold is_Fe, is_param, is_inter, is_final, Regex.in_range; char_codes;
  rewrite ?andb_true_iff, ?orb_true_iff, ?andb_false_iff, ?orb_false_iff,
    ?N.leb_le, ?N.leb_gt;
  lia.

Lemma param_not_final c : is_param c = true -> is_final c = false.
Proof. class_arith. Qed.

Lemma inter_not_final c : is_inter c = true -> is_final c = false.
Proof. class_arith. Qed.

Lemma bracket_not_Fe : is_Fe "["%char = false.
Proof. reflexivity. Qed.

(** The final character of a sequence is where its first character of the
    class of final characters is. *)
Lemma final_position (a a' q : str) (f f' : ascii) :
  Forall (fun c => is_final c = false) a -> Forall (fun c => is_final c = false) a' ->
  is_final f = true -> is_final f' = true ->
  a ++ f :: q = a' ++ [f'] -> q = [].
Proof.
  intros Ha. revert a'. induction Ha as [|x a Hx Ha IH]; intros a' Ha' Hf Hf' Heq.
  - destruct Ha' as [|y a' Hy Ha']; simpl in Heq.
    + by injection Heq.
    + injection Heq as -> _. congruence.
  - destruct Ha' as [|y a' Hy Ha']; simpl in Heq.
    + injection Heq as -> _. congruence.
    + injection Heq as -> Heq. by apply (IH a').
Qed.

Lemma shape_body_nonfinal ps ints :
  Forall (fun c => is_param c = true) ps -> Forall (fun c => is_inter c = true) ints ->
  Forall (fun c => is_final c = false) (ps ++ ints).
Proof.
  intros Hps Hints. apply Forall_app. split.
  - eapply Forall_impl; [exact Hps|]. apply param_not_final.
  - eapply Forall_impl; [exact Hints|]. apply inter_not_final.
Qed.

(** No escape sequence is the beginning of a longer one. *)
Lemma shape_prefix_free p k q : escape_shape p -> escape_shape k -> k = p ++ q -> q = [].
Proof.
  intros [c Hc|ps ints f Hps Hints Hf] [c' Hc'|ps' ints' f' Hps' Hints' Hf'] Heq; simpl in Heq.
  - by injection Heq.
  - injection Heq as <- _. by rewrite bracket_not_Fe in Hc.
  - injection Heq as _ Heq. symmetry in Heq. rewrite <- !app_assoc in Heq.
    apply app_eq_nil in Heq as [_ Heq]. apply app_eq_nil in Heq as [_ Heq]. done.
  - injection Heq as Heq.
    apply (final_position (ps ++ ints) (ps' ++ ints') q f f');
      try done; try (by apply shape_body_nonfinal).
    by rewrite <- !app_assoc in *.
Qed.

Lemma shape_matches k : escape_shape k -> ESCAPE_SEQ_match k = true.
Proof. intros H. apply ESCAPE_SEQ_language. by left. Qed.

(** A text that [ESCAPE_SEQ] matches begins with an escape sequence. *)
Lemma match_begins_with_shape k :
  ESCAPE_SEQ_match k = true -> exists body q, k = body ++ q /\ escape_shape body.
Proof.
  intros [H|(body & -> & H)]%ESCAPE_SEQ_language.
  - exists k, []. by rewrite app_nil_r.
  - by exists body, [LF].
Qed.

(** The loop of [_getKey] stops at the first text that matches. *)
Lemma _getKey_loop_first gas k st k' st' :
  _getKey_loop gas k st = (Return k', st') ->
  exists extra,
    k' = k ++ extra /\ stdin st = extra ++ stdin st' /\ ESCAPE_SEQ_match k' = true /\
    forall e1 e2, extra = e1 ++ e2 -> e2 <> [] -> ESCAPE_SEQ_match (k ++ e1) = false.
Proof.
  revert k st. induction gas as [|gas IH]; intros k st; simpl.
  - destruct (ESCAPE_SEQ_match k) eqn:Hk; [|done]. intros [= <- <-].
    exists []. rewrite app_nil_r. repeat split; try done.
    intros e1 e2 Heq He2. symmetry in Heq. by apply app_eq_nil in Heq as [_ ->].
  - destruct (ESCAPE_SEQ_match k) eqn:Hk.
    + intros [= <- <-]. exists []. rewrite app_nil_r. repeat split; try done.
      intros e1 e2 Heq He2. symmetry in Heq. by apply app_eq_nil in Heq as [_ ->].
    + unfold bind. destruct (stdin st) as [|c rest] eqn:Hin.
      * by rewrite _getChar_nil.
      * rewrite (_getChar_cons c rest) by done. intros Hrun.
        apply IH in Hrun as (extra & -> & Hrest & Hm & Hfirst). simpl in Hrest.
        exists (c :: extra). rewrite <- app_assoc in *. simpl app at 1. subst rest.
        repeat split; try done.
        intros [|c1 e1] e2 Heq He2; [by rewrite app_nil_r|].
        simpl in Heq. injection Heq as <- ->.
        specialize (Hfirst e1 e2 eq_refl He2). by rewrite <- app_assoc in Hfirst.
Qed.

(** A key: one character other than the escape character, or an escape
    sequence of one of the two forms. *)
Definition is_key (k : str) : Prop :=
  (exists c, k = [c] /\ c <> "027"%char) \/ escape_shape k.

Lemma _getKey_returns_key st k st' : _getKey st = (Return k, st') -> is_key k.
Proof.
  unfold _getKey, bind. destruct (stdin st) as [|c rest] eqn:Hin.
  - by rewrite _getChar_nil.
  - rewrite (_getChar_cons c rest) by done. cbv beta iota.
    destruct (decide _) as [Hc|Hc].
    + intros Hrun. apply _getKey_loop_first in Hrun as (extra & -> & Hrest & Hm & Hfirst). right.
      apply ESCAPE_SEQ_language in Hm as [Hm|(body & Heq & Hbody)]; [done|].
      exfalso. injection Hc as ->.
      destruct body as [|b body]; [inversion Hbody|].
      simpl in Heq. injection Heq as <- ->.
      pose proof (Hfirst body [LF] eq_refl ltac:(done)) as Hno.
      pose proof (shape_matches _ Hbody) as Hyes. simpl in Hno. congruence.
    + intros [= <- <-]. left. exists c. split; [done|]. by intros ->.
Qed.

Example delete_key_is_escape_shape : escape_shape DELETE.
Proof. apply (shape_csi ["3"%char] [] "~"%char); by repeat constructor. Qed.

(** X1.  Whatever [_getKey] returns is a key: one character other than the
    escape character, or an escape sequence of one of the two forms of
    [ESCAPE_SEQ] (never one with the newline that [$] would let pass).  The
    key is exactly what was taken from the input, and the reader and the
    output are untouched. *)
Theorem decoded_key_is_wellformed st k st' :
  _getKey st = (Return k, st') ->
  is_key k /\ stdin st = k ++ stdin st' /\ self st' = self st /\ stdout st' = stdout st.
Proof.
  intros H. split; [by apply (_getKey_returns_key st k st')|].
  by apply _getKey_Return in H as (_ & ? & ? & ?).
Qed.

Lemma decoded_key_is_wellformed_witness :
  let st := mkState (init [] [] false) (DELETE ++ lit "x") [] in
  _getKey st = (Return DELETE, with_stdin (lit "x") st) /\ is_key DELETE.
Proof.
  intros st.
  assert (H : _getKey st = (Return DELETE, with_stdin (lit "x") st)) by reflexivity.
  split; [exact H|]. exact (proj1 (decoded_key_is_wellformed _ _ _ H)).
Defined.

(** An escape sequence at the head of the input is decoded as one key. *)
Lemma _getKey_shape st k rest :
  escape_shape k -> stdin st = k ++ rest -> _getKey st = (Return k, with_stdin rest st).
Proof.
  intros Hshape Hin.
  assert (exists tk, k = "027"%char :: tk) as [tk ->] by (destruct Hshape; by eexists).
  unfold _getKey, bind. rewrite (_getChar_cons "027"%char (tk ++ rest)) by done.
  cbv beta iota. destruct (decide _) as [_|Hne]; [|done].
  destruct (_getKey_loop_inv (S (length (stdin (with_stdin (tk ++ rest) st))))
              ["027"%char] (with_stdin (tk ++ rest) st))
    as [(extra & rest' & Heq & Hm & Hrun)|[Hno _]]; [lia| |].
  - rewrite Hrun. pose proof Hrun as Hfirst.
    apply _getKey_loop_first in Hfirst as (extra0 & Heq0 & _ & _ & Hfirst).
    apply app_inv_head in Heq0 as <-.
    change (stdin (with_stdin (tk ++ rest) st)) with (tk ++ rest) in Heq.
    assert (extra = tk) as ->.
    { destruct (prefix_weak_total extra tk (tk ++ rest)) as [[q Hq]|[q Hq]].
      - rewrite Heq. by exists rest'.
      - by exists rest.
      - apply match_begins_with_shape in Hm as (body & q' & Hbody & Hsh).
        assert (q' ++ q = []) as Hnil.
        { apply (shape_prefix_free body ("027"%char :: tk)); [done|done|].
          rewrite Hq. simpl in Hbody. rewrite app_comm_cons, Hbody.
          by rewrite app_assoc. }
        apply app_eq_nil in Hnil as [_ ->]. by rewrite app_nil_r in Hq.
      - destruct q as [|c q]; [by rewrite app_nil_r in Hq|].
        pose proof (Hfirst tk (c :: q) Hq ltac:(done)) as Hno.
        pose proof (shape_matches _ Hshape) as Hyes. simpl in Hno. congruence. }
    apply app_inv_head in Heq as <-. reflexivity.
  - specialize (Hno tk rest eq_refl).
    pose proof (shape_matches _ Hshape) as Hyes. simpl in Hno. congruence.
Qed.

(** X2.  Every key at the head of the input is decoded as that key,
    whatever follows it: the decoder takes the characters of the key and
    not one more. *)
Theorem key_is_decoded_whole st k rest :
  is_key k -> stdin st = k ++ rest -> _getKey st = (Return k, with_stdin rest st).
Proof.
  intros [(c & -> & Hc)|Hshape] Hin.
  - apply _getKey_plain; [done|]. intros [= ->]. done.
  - by apply _getKey_shape.
Qed.

Lemma key_is_decoded_whole_witness :
  let st := mkState (init [] [] false) ("027"%char :: lit "[1;5C" ++ lit "abc") [] in
  is_key ("027"%char :: lit "[1;5C") /\
  _getKey st = (Return ("027"%char :: lit "[1;5C"), with_stdin (lit "abc") st).
Proof.
  intros st.
  assert (Hk : is_key ("027"%char :: lit "[1;5C")).
  { right. apply (shape_csi (lit "1;5") [] "C"%char); by repeat constructor. }
  split; [exact Hk|]. exact (key_is_decoded_whole st _ (lit "abc") Hk eq_refl).
Defined.

(** No text that begins with the escape character and a character that can
    neither end a two-character sequence nor open a longer one is matched
    by [ESCAPE_SEQ]. *)
Lemma bad_second_char_never_matches c extra :
  is_Fe c = false -> c <> "["%char -> ESCAPE_SEQ_match ("027"%char :: c :: extra) = false.
Proof.
  intros Hfe Hbr. destruct (ESCAPE_SEQ_match _) eqn:Hm; [|done]. exfalso.
  apply match_begins_with_shape in Hm as (body & q & Heq & Hsh).
  destruct Hsh as [c' Hc'|ps ints f _ _ _]; simpl in Heq; injection Heq as Hc _;
    subst; congruence.
Qed.

(** X3.  After the escape character, a character that is neither an opening
    bracket nor one of [[@-Z\\-_]] leaves the decoder waiting for ever:
    whatever follows, [_getKey] takes all of the input and is still waiting
    for the end of an escape sequence that cannot come. *)
Theorem escape_then_bad_char_blocks st c rest :
  is_Fe c = false -> c <> "["%char -> stdin st = "027"%char :: c :: rest ->
  _getKey st = (Blocked, with_stdin [] st).
Proof.
  intros Hfe Hbr Hin. unfold _getKey, bind.
  rewrite (_getChar_cons "027"%char (c :: rest)) by done. cbv beta iota.
  destruct (decide _) as [_|Hne]; [|done].
  destruct (_getKey_loop_inv (S (length (stdin (with_stdin (c :: rest) st))))
              ["027"%char] (with_stdin (c :: rest) st))
    as [(extra & rest' & Heq & Hm & _)|[_ Hrun]]; [lia| |done].
  exfalso. change (stdin (with_stdin (c :: rest) st)) with (c :: rest) in Heq.
  destruct extra as [|c' extra]; [done|].
  simpl in Heq. injection Heq as Hc _. subst c'. simpl in Hm.
  by rewrite (bad_second_char_never_matches c extra) in Hm.
Qed.

Lemma escape_then_bad_char_blocks_witness :
  let st := mkState (init [] [] false) ("027"%char :: lit "1abc" ++ CR) [] in
  is_Fe "1"%char = false /\ "1"%char <> "["%char /\
  _getKey st = (Blocked, with_stdin [] st).
Proof.
  intros st.
  split; [reflexivity|]. split; [done|].
  exact (escape_then_bad_char_blocks st "1"%char (lit "abc" ++ CR) eq_refl ltac:(done) eq_refl).
Defined.

(** ** The interrupt character, at the beginning of a key and inside one *)

(** When the decoder waits, it has used up the input. *)
Lemma _getKey_Blocked_stdin st st1 : _getKey st = (Blocked, st1) -> stdin st1 = [].
Proof.
  unfold _getKey, bind. destruct (stdin st) as [|c rest] eqn:Hin.
  - rewrite _getChar_nil by done. by intros [= <-].
  - rewrite (_getChar_cons c rest) by done. cbv beta iota.
    destruct (decide _) as [Hc|Hc]; [|done].
    destruct (_getKey_loop_inv (S (length (stdin (with_stdin rest st)))) [c] (with_stdin rest st))
      as [(extra & rest' & _ & _ & ->)|[_ ->]]; [lia|done|].
    by intros [= <-].
Qed.

(** An escape sequence that has begun and is not complete: the escape
    character alone, or the escape character, an opening bracket and
    parameter and intermediate characters, the final character still to
    come. *)
Inductive unfinished_escape : str -> Prop :=
| unfinished_esc : unfinished_escape ESCAPE
| unfinished_csi ps ints :
    Forall (fun c => is_param c = true) ps ->
    Forall (fun c => is_inter c = true) ints ->
    unfinished_escape ("027"%char :: "["%char :: ps ++ ints).

(** Two texts that agree after characters of one class have their first
    character outside the class at the same place. *)
Lemma first_outside (Q : ascii -> bool) (a b r s : str) (x y : ascii) :
  Forall (fun c => Q c = true) a -> Forall (fun c => Q c = true) b ->
  Q x = false -> Q y = false -> a ++ x :: r = b ++ y :: s -> x = y.
Proof.
  intros Ha. revert b. induction Ha as [|c a Hc Ha IH]; intros b Hb Hx Hy Heq.
  - destruct Hb as [|d b Hd Hb]; simpl in Heq.
    + by injection Heq.
    + injection Heq as -> _. congruence.
  - destruct Hb as [|d b Hd Hb]; simpl in Heq.
    + injection Heq as -> _. congruence.
    + injection Heq as _ Heq. by apply (IH b).
Qed.

Lemma shape_body_class ps ints :
  Forall (fun c => is_param c = true) ps -> Forall (fun c => is_inter c = true) ints ->
  Forall (fun c => is_param c || is_inter c = true) (ps ++ ints).
Proof.
  intros Hps Hints. apply Forall_app. split.
  - eapply Forall_impl; [exact Hps|]. by intros c ->.
  - eapply Forall_impl; [exact Hints|]. intros c ->. apply orb_true_r.
Qed.

Lemma final_not_body c : is_final c = true -> is_param c || is_inter c = false.
Proof.
  intros Hf. apply orb_false_iff. split; revert Hf; class_arith.
Qed.

(** No escape sequence ends at, or goes through, an interrupt character
    that comes inside an unfinished one. *)
Lemma no_shape_through_interrupt body q p rest :
  escape_shape body -> unfinished_escape p ->
  body ++ q = p ++ INTERRUPT ++ rest -> False.
Proof.
  intros [c Hc|ps' ints' f' Hps' Hints' Hf'] [|ps ints Hps Hints] Heq; simpl in Heq.
  - injection Heq as -> _. by vm_compute in Hc.
  - injection Heq as -> _. by rewrite bracket_not_Fe in Hc.
  - by injection Heq.
  - injection Heq as Heq. rewrite <- !app_assoc in Heq. simpl in Heq. rewrite !app_assoc in Heq.
    apply (first_outside (fun c => is_param c || is_inter c)) in Heq;
      try done; try (by apply shape_body_class); [|by apply final_not_body].
    by subst f'.
Qed.

(** Inside an unfinished escape sequence the interrupt character is one
    more character of the key: [_getKey] reads it and all that follows, and
    is still waiting. *)
Lemma interrupt_in_escape_blocks st p rest :
  unfinished_escape p -> stdin st = p ++ INTERRUPT ++ rest ->
  _getKey st = (Blocked, with_stdin [] st).
Proof.
  intros Hp Hin.
  destruct (_getKey_inv st) as [(k & rest' & Hk & Heq & Hrun)|[rest' Hrun]].
  - exfalso. rewrite Hin in Heq.
    assert (Hshape : escape_shape k).
    { destruct (_getKey_returns_key _ _ _ Hrun) as [(c & -> & Hc)|Hs]; [|done].
      destruct Hp; simpl in Heq; injection Heq as Hc' _; congruence. }
    by apply (no_shape_through_interrupt k rest' p rest).
  - pose proof (_getKey_Blocked_stdin _ _ Hrun) as Hnil. simpl in Hnil. by subst rest'.
Qed.

(** C7, amended.  When the interrupt character is the first character of a
    key, after whatever keys the session has handled, [read] raises
    [KeyboardInterrupt] and so returns no line, and the reader is as the
    keys before left it; the end-of-input character in the same place
    raises [EOFError], which is another exception.  When the interrupt
    character comes inside an unfinished escape sequence (after the escape
    character, or after the escape character, the opening bracket and any
    parameter and intermediate characters), it is read as part of that
    sequence: nothing is raised and no line is returned, the decoder takes
    all the input that follows and the session waits, with the reader and
    the output as the keys before left them. *)
Theorem interrupt_cancels pastLines prompt debug t ks st rest :
  steps (start pastLines prompt debug t) ks st ->
  (stdin st = INTERRUPT ++ rest ->
   exists st', session pastLines prompt debug t = (Raise KeyboardInterrupt, st') /\
               self st' = self st) /\
  (stdin st = EOF ++ rest ->
   exists st', session pastLines prompt debug t = (Raise EOFError, st') /\
               self st' = self st) /\
  KeyboardInterrupt <> EOFError /\
  (forall p, unfinished_escape p -> stdin st = p ++ INTERRUPT ++ rest ->
   session pastLines prompt debug t = (Blocked, with_stdin [] st)).
Proof.
  intros Hsteps.
  assert (Hwf : wf (self st)) by apply (steps_wf _ _ _ Hsteps), wf_start.
  split; [|split; [|split; [done|]]].
  - intros Hin.
    assert (Hkey : _getKey st = (Return INTERRUPT, with_stdin rest st))
      by by apply (_getKey_plain "003"%char).
    destruct (read_body_effect INTERRUPT (with_stdin rest st)) as (res & r' & out & Hbody & Heff);
      [apply Hwf|].
    apply key_effect_INTERRUPT in Heff as [-> ->].
    eexists. split.
    { apply (session_run _ _ _ _ ks st); [done|].
      eapply end_raise; [exact Hkey|done|exact Hbody]. }
    done.
  - intros Hin.
    assert (Hkey : _getKey st = (Return EOF, with_stdin rest st))
      by by apply (_getKey_plain "004"%char).
    destruct (read_body_effect EOF (with_stdin rest st)) as (res & r' & out & Hbody & Heff);
      [apply Hwf|].
    apply key_effect_EOF in Heff as [-> ->].
    eexists. split.
    { apply (session_run _ _ _ _ ks st); [done|].
      eapply end_raise; [exact Hkey|done|exact Hbody]. }
    done.
  - intros p Hp Hin. apply (session_run _ _ _ _ ks st); [done|].
    apply end_blocked. by apply (interrupt_in_escape_blocks st p rest).
Qed.

Lemma interrupt_cancels_witness :
  let t := mkTty (lit "ab" ++ LEFT ++ INTERRUPT ++ lit "c") [] in
  let t' := mkTty (lit "ab" ++ LEFT ++ ("027"%char :: lit "[1;") ++ INTERRUPT ++ lit "c") [] in
  let ks := [lit "a"; lit "b"; LEFT] in
  (steps (start [] [] false t) ks (after_keys ks (start [] [] false t)) /\
   stdin (after_keys ks (start [] [] false t)) = INTERRUPT ++ lit "c" /\
   exists st', session [] [] false t = (Raise KeyboardInterrupt, st')) /\
  (steps (start [] [] false t') ks (after_keys ks (start [] [] false t')) /\
   unfinished_escape ("027"%char :: lit "[1;") /\
   stdin (after_keys ks (start [] [] false t'))
     = ("027"%char :: lit "[1;") ++ INTERRUPT ++ lit "c" /\
   session [] [] false t' = (Blocked, with_stdin [] (after_keys ks (start [] [] false t')))).
Proof.
  intros t t' ks. split.
  - assert (Hsteps : steps (start [] [] false t) ks (after_keys ks (start [] [] false t))).
    { apply after_keys_steps. vm_compute. by eexists. }
    assert (Hin : stdin (after_keys ks (start [] [] false t)) = INTERRUPT ++ lit "c")
      by (vm_compute; reflexivity).
    split; [exact Hsteps|]. split; [exact Hin|].
    destruct (proj1 (interrupt_cancels _ _ _ _ _ _ _ Hsteps) Hin) as (st' & Hrun & _).
    by exists st'.
  - assert (Hsteps : steps (start [] [] false t') ks (after_keys ks (start [] [] false t'))).
    { apply after_keys_steps. vm_compute. by eexists. }
    assert (Hp : unfinished_escape ("027"%char :: lit "[1;")).
    { apply (unfinished_csi (lit "1;") []); by repeat constructor. }
    assert (Hin : stdin (after_keys ks (start [] [] false t'))
                  = ("027"%char :: lit "[1;") ++ INTERRUPT ++ lit "c")
      by (vm_compute; reflexivity).
    split; [exact Hsteps|]. split; [exact Hp|]. split; [exact Hin|].
    exact (proj2 (proj2 (proj2 (interrupt_cancels _ _ _ _ _ _ _ Hsteps))) _ Hp Hin).
Defined.

(** ** The editing keys, one at a time *)

(** A character that is inserted when typed: any character other than the
    escape, backspace, interrupt and end-of-input characters and the
    carriage return. *)
Definition plain (c : ascii) : Prop :=
  [c] <> ESCAPE /\ [c] <> BACKSPACE /\ [c] <> INTERRUPT /\ [c] <> EOF /\ [c] <> CR.

Lemma slice_to_take {A} (l : list A) (i : Z) : 0 <= i -> slice_to l i = take (Z.to_nat i) l.
Proof. intros Hi. unfold slice_to. destruct (Z.ltb_spec i 0); [lia|done]. Qed.

Lemma slice_from_drop {A} (l : list A) (i : Z) : 0 <= i -> slice_from l i = drop (Z.to_nat i) l.
Proof. intros Hi. unfold slice_from. destruct (Z.ltb_spec i 0); [lia|done]. Qed.

Lemma slice_to_all {A} (l : list A) : slice_to l (len l) = l.
Proof.
  rewrite slice_to_take by apply len_nonneg. unfold len. rewrite Nat2Z.id. apply firstn_all.
Qed.

Lemma slice_from_all {A} (l : list A) : slice_from l (len l) = [].
Proof.
  rewrite slice_from_drop by apply len_nonneg. unfold len. rewrite Nat2Z.id. apply drop_all.
Qed.

Lemma key_effect_BACKSPACE r res r' :
  key_effect BACKSPACE r res r' ->
  res = Return tt /\ r' = after_store_line (after_doBackspace r).
Proof. inversion 1 as [l ?|l ?|?|?|?|?|?|?|?|k' Heq|c' k' Heq Hc ? Hbs]; try done. Qed.

Lemma key_effect_DELETE r res r' :
  key_effect DELETE r res r' ->
  res = Return tt /\ r' = after_store_line (after_doDelete r).
Proof.
  inversion 1 as [l ?|l ?|?|?|?|?|?|?|?|k' Heq|c' k' Heq Hc]; try done.
  injection Heq as <- <-. done.
Qed.

Lemma key_effect_LEFT r res r' :
  key_effect LEFT r res r' -> res = Return tt /\ r' = after_moveCharRight (-1) r.
Proof.
  inversion 1 as [l ?|l ?|?|?|?|?|?|?|?|k' Heq Hk|c' k' Heq Hc]; try done.
  - destruct Hk. repeat constructor.
  - injection Heq as <- <-. done.
Qed.

Lemma key_effect_RIGHT r res r' :
  key_effect RIGHT r res r' -> res = Return tt /\ r' = after_moveCharRight 1 r.
Proof.
  inversion 1 as [l ?|l ?|?|?|?|?|?|?|?|k' Heq Hk|c' k' Heq Hc]; try done.
  - destruct Hk. repeat constructor.
  - injection Heq as <- <-. done.
Qed.

(** One turn of the loop for a key whose effect on the reader is known:
    [effect] is what the key makes of the reader. *)
Lemma loop_step_with k (effect : SingleLineReader -> SingleLineReader) st rest :
  (forall r res r', key_effect k r res r' -> res = Return tt /\ r' = effect r) ->
  k <> CR -> wf (self st) -> _getKey st = (Return k, with_stdin rest st) ->
  exists st', loop_step k st st' /\ stdin st' = rest /\ self st' = effect (self st).
Proof.
  intros Hinv Hcr Hwf Hkey.
  destruct (read_body_effect k (with_stdin rest st)) as (res & r' & out & Hbody & Heff);
    [apply Hwf|].
  apply Hinv in Heff as [-> ->].
  eexists. split; [exists (with_stdin rest st); by repeat split|]. by split.
Qed.

Lemma loop_step_plain st c rest :
  wf (self st) -> plain c -> stdin st = c :: rest ->
  exists st', loop_step [c] st st' /\ stdin st' = rest /\
              self st' = after_store_line (after_insertChar [c] (self st)).
Proof.
  intros Hwf (Hesc & Hbs & Hint & Heof & Hcr) Hin.
  apply (loop_step_with [c] (fun r => after_store_line (after_insertChar [c] r))); try done.
  - intros r res r'. by apply key_effect_plain.
  - by apply _getKey_plain.
Qed.

Lemma loop_step_BACKSPACE st rest :
  wf (self st) -> stdin st = BACKSPACE ++ rest ->
  exists st', loop_step BACKSPACE st st' /\ stdin st' = rest /\
              self st' = after_store_line (after_doBackspace (self st)).
Proof.
  intros Hwf Hin.
  apply (loop_step_with BACKSPACE (fun r => after_store_line (after_doBackspace r))); try done.
  - apply key_effect_BACKSPACE.
  - by apply (_getKey_plain "127"%char).
Qed.

Lemma loop_step_DELETE st rest :
  wf (self st) -> stdin st = DELETE ++ rest ->
  exists st', loop_step DELETE st st' /\ stdin st' = rest /\
              self st' = after_store_line (after_doDelete (self st)).
Proof.
  intros Hwf Hin.
  apply (loop_step_with DELETE (fun r => after_store_line (after_doDelete r))); try done.
  - apply key_effect_DELETE.
  - apply _getKey_known; [repeat constructor|done].
Qed.

Lemma loop_step_LEFT st rest :
  wf (self st) -> stdin st = LEFT ++ rest ->
  exists st', loop_step LEFT st st' /\ stdin st' = rest /\
              self st' = after_moveCharRight (-1) (self st).
Proof.
  intros Hwf Hin. apply (loop_step_with LEFT (after_moveCharRight (-1))); try done.
  - apply key_effect_LEFT.
  - apply _getKey_known; [repeat constructor|done].
Qed.

Lemma loop_step_RIGHT st rest :
  wf (self st) -> stdin st = RIGHT ++ rest ->
  exists st', loop_step RIGHT st st' /\ stdin st' = rest /\
              self st' = after_moveCharRight 1 (self st).
Proof.
  intros Hwf Hin. apply (loop_step_with RIGHT (after_moveCharRight 1)); try done.
  - apply key_effect_RIGHT.
  - apply _getKey_known; [repeat constructor|done].
Qed.

(** The loop handles a key in one way only. *)
Lemma loop_step_fun k st st1 st2 : loop_step k st st1 -> loop_step k st st2 -> st1 = st2.
Proof.
  intros (s1 & Hk1 & _ & Hb1) (s2 & Hk2 & _ & Hb2). rewrite Hk1 in Hk2.
  injection Hk2 as <-. rewrite Hb1 in Hb2. by injection Hb2.
Qed.

Lemma wf_reached pastLines prompt debug t ks st :
  steps (start pastLines prompt debug t) ks st -> wf (self st).
Proof. intros H. apply (steps_wf _ _ _ H), wf_start. Qed.

(** ** Typing a line *)

(** Typing plain characters with the cursor at the end of the line appends
    them. *)
Lemma type_at_end w : forall st rest,
  wf (self st) -> charIdx (self st) = len (line (self st)) ->
  Forall plain w -> stdin st = w ++ rest ->
  exists st',
    steps st (map (fun c => [c]) w) st' /\
    line (self st') = line (self st) ++ w /\
    charIdx (self st') = len (line (self st')) /\
    lineIdx (self st') = lineIdx (self st) /\
    stdin st' = rest.
Proof.
  induction w as [|c w IH]; intros st rest Hwf Hend Hplain Hin.
  - exists st. rewrite app_nil_r. repeat split; try done. constructor.
  - apply Forall_cons in Hplain as [Hc Hplain].
    destruct (loop_step_plain st c (w ++ rest) Hwf Hc Hin) as (st1 & Hstep & Hin1 & Hself1).
    assert (Hline1 : line (self st1) = line (self st) ++ [c]).
    { rewrite Hself1. simpl. by rewrite Hend, slice_to_all, slice_from_all. }
    destruct (IH st1 rest) as (st' & Hsteps & Hline & Hcur & Hidx & Hrest); try done.
    + by apply (loop_step_wf [c] st).
    + rewrite Hline1, len_app. rewrite Hself1. simpl. rewrite Hend. unfold len. simpl. lia.
    + exists st'. repeat split; try done.
      * by apply (steps_cons [c] st st1).
      * rewrite Hline, Hline1, <- app_assoc. done.
      * rewrite Hidx, Hself1. done.
Qed.

Example typed_hello :
  run [lit "old"] (lit "hello" ++ CR) = (Return (lit "hello"), [lit "old"; lit "hello"]).
Proof. vm_compute. reflexivity. Qed.

Lemma getLine_typed i prompt w rest out :
  Forall plain w ->
  exists out' r',
    getLine i prompt (mkTty (w ++ CR ++ rest) out) =
    (Return w, mkInput (Input_lines i ++ [w]) (Input_debug i), mkTty rest out', r').
Proof.
  intros Hplain. rewrite getLine_session.
  set (t := mkTty (w ++ CR ++ rest) out).
  set (s0 := start (Input_lines i) prompt (Input_debug i) t).
  destruct (type_at_end w s0 (CR ++ rest)) as (st & Hsteps & Hline & _ & _ & Hin);
    try done; [apply wf_start|].
  simpl in Hline.
  assert (Hkey : _getKey st = (Return CR, with_stdin rest st))
    by by apply (_getKey_plain "013"%char).
  rewrite (session_run _ _ _ _ _ st _ _ Hsteps (end_accept st _ Hkey)).
  destruct (steps_past _ _ _ _ _ _ Hsteps) as [x Hx].
  simpl. rewrite Hline, Hx, insert_last_snoc. by eexists _, _.
Qed.

(** X4.  A line of plain characters followed by the carriage return is
    what [getLine] returns: the characters typed, in order.  The line is
    appended to the history of the [Input], and what follows the carriage
    return stays in the input unread. *)
Theorem typed_line_is_returned i prompt w rest out :
  Forall plain w ->
  exists out' r',
    getLine i prompt (mkTty (w ++ CR ++ rest) out) =
    (Return w, mkInput (Input_lines i ++ [w]) (Input_debug i), mkTty rest out', r').
Proof.
  intros Hplain.
  destruct (getLine_typed i prompt w rest out Hplain) as (out' & r' & Hrun).
  exists out', r'. exact Hrun.
Qed.

Lemma typed_line_is_returned_witness :
  Forall plain (lit "hi") /\
  exists out' r',
    getLine (mkInput [lit "old"] false) (lit "> ") (mkTty (lit "hi" ++ CR ++ lit "next") []) =
    (Return (lit "hi"), mkInput ([lit "old"] ++ [lit "hi"]) false, mkTty (lit "next") out', r').
Proof.
  assert (Hplain : Forall plain (lit "hi")) by (repeat constructor; done).
  split; [exact Hplain|].
  exact (typed_line_is_returned (mkInput [lit "old"] false) (lit "> ") (lit "hi") (lit "next") []
           Hplain).
Defined.

(** ** How the editing keys compose *)

(** Removing the character before position [n + 1] of a line into which a
    character was put at position [n] gives the line back. *)
Lemma insert_then_remove {A} (l : list A) (x : A) (n : Z) :
  0 <= n <= len l ->
  slice_to (slice_to l n ++ [x] ++ slice_from l n) (n + 1 - 1) ++
  slice_from (slice_to l n ++ [x] ++ slice_from l n) (n + 1) = l.
Proof.
  intros Hn. unfold len in Hn.
  rewrite !slice_to_take, !slice_from_drop by lia.
  replace (Z.to_nat (n + 1 - 1)) with (Z.to_nat n) by lia.
  assert (Hlen : length (take (Z.to_nat n) l) = Z.to_nat n) by (rewrite length_take; lia).
  rewrite take_app_length' by done.
  replace (Z.to_nat (n + 1)) with (length (take (Z.to_nat n) l ++ [x])).
  - rewrite (app_assoc _ [x]), drop_app_length. apply take_drop.
  - rewrite length_app, Hlen. simpl. lia.
Qed.

Example insert_in_the_middle_then_backspace :
  option_map (fun st => (line (self st), charIdx (self st)))
    (run_keys [lit "a"; lit "c"; LEFT; lit "b"; BACKSPACE]
       (start [] [] false (mkTty (lit "ac" ++ LEFT ++ lit "b" ++ BACKSPACE) [])))
  = Some (lit "ac", 1).
Proof. vm_compute. reflexivity. Qed.

(** X5.  Backspace undoes the character just typed: wherever the cursor
    is, a plain character followed by Backspace leaves the line and the
    cursor as they were, and both keys are taken from the input. *)
Theorem backspace_undoes_typing pastLines prompt debug t ks st c rest :
  steps (start pastLines prompt debug t) ks st ->
  plain c -> stdin st = c :: BACKSPACE ++ rest ->
  exists st1 st2,
    loop_step [c] st st1 /\ loop_step BACKSPACE st1 st2 /\
    line (self st2) = line (self st) /\ charIdx (self st2) = charIdx (self st) /\
    lineIdx (self st2) = lineIdx (self st) /\ stdin st2 = rest.
Proof.
  intros Hsteps Hc Hin. pose proof (wf_reached _ _ _ _ _ _ Hsteps) as Hwf.
  destruct (loop_step_plain st c (BACKSPACE ++ rest) Hwf Hc Hin) as (st1 & Hstep1 & Hin1 & Hself1).
  assert (Hwf1 : wf (self st1)) by by apply (loop_step_wf [c] st).
  destruct (loop_step_BACKSPACE st1 rest Hwf1 Hin1) as (st2 & Hstep2 & Hin2 & Hself2).
  exists st1, st2. repeat split; try done; rewrite Hself2, Hself1; unfold after_doBackspace; simpl;
    pose proof (wf_charIdx _ Hwf);
    (destruct (Z.gtb_spec (charIdx (self st) + 1) 0); [|lia]); simpl; try done.
  - by apply insert_then_remove.
  - lia.
Qed.

Lemma backspace_undoes_typing_witness :
  let s0 := start [] [] false (mkTty (lit "ac" ++ LEFT ++ lit "b" ++ BACKSPACE) []) in
  let ks := [lit "a"; lit "c"; LEFT] in
  steps s0 ks (after_keys ks s0) /\ plain "b"%char /\
  stdin (after_keys ks s0) = "b"%char :: BACKSPACE ++ [] /\
  exists st1 st2,
    loop_step (lit "b") (after_keys ks s0) st1 /\ loop_step BACKSPACE st1 st2 /\
    line (self st2) = line (self (after_keys ks s0)).
Proof.
  intros s0 ks.
  assert (Hsteps : steps s0 ks (after_keys ks s0)).
  { apply after_keys_steps. vm_compute. by eexists. }
  assert (Hplain : plain "b"%char) by (repeat split; done).
  assert (Hin : stdin (after_keys ks s0) = "b"%char :: BACKSPACE ++ []) by (vm_compute; reflexivity).
  split; [exact Hsteps|]. split; [exact Hplain|]. split; [exact Hin|].
  destruct (backspace_undoes_typing _ _ _ _ _ _ _ _ Hsteps Hplain Hin)
    as (st1 & st2 & Hstep1 & Hstep2 & Hline & _).
  exists st1, st2. by repeat split.
Defined.

(** X6.  With the cursor before the end of the line, Delete does to the
    reader what ArrowRight followed by Backspace does: the same line, the
    same cursor, the same history. *)
Theorem delete_is_right_then_backspace pastLines prompt debug t ks st rest :
  steps (start pastLines prompt debug t) ks st ->
  charIdx (self st) < len (line (self st)) ->
  exists stD st1 st2,
    loop_step DELETE (with_stdin (DELETE ++ rest) st) stD /\
    loop_step RIGHT (with_stdin (RIGHT ++ BACKSPACE ++ rest) st) st1 /\
    loop_step BACKSPACE st1 st2 /\
    self stD = self st2 /\ stdin stD = rest /\ stdin st2 = rest.
Proof.
  intros Hsteps Hlt. pose proof (wf_reached _ _ _ _ _ _ Hsteps) as Hwf.
  destruct (loop_step_DELETE (with_stdin (DELETE ++ rest) st) rest Hwf eq_refl)
    as (stD & HstepD & HinD & HselfD).
  destruct (loop_step_RIGHT (with_stdin (RIGHT ++ BACKSPACE ++ rest) st) (BACKSPACE ++ rest) Hwf eq_refl)
    as (st1 & Hstep1 & Hin1 & Hself1).
  assert (Hwf1 : wf (self st1)) by by apply (loop_step_wf RIGHT (with_stdin (RIGHT ++ BACKSPACE ++ rest) st)).
  destruct (loop_step_BACKSPACE st1 rest Hwf1 Hin1) as (st2 & Hstep2 & Hin2 & Hself2).
  exists stD, st1, st2. repeat split; try done.
  rewrite HselfD, Hself2, Hself1. simpl.
  pose proof (wf_charIdx _ Hwf) as Hc.
  unfold after_doDelete, after_doBackspace, after_moveCharRight. simpl.
  assert (Hb : _bound (charIdx (self st) + 1) (Some 0) (Some (len (line (self st))))
               = charIdx (self st) + 1) by (unfold _bound; lia).
  rewrite Hb.
  destruct (Z.ltb_spec (charIdx (self st)) (len (line (self st)))); [|lia].
  destruct (Z.gtb_spec (charIdx (self st) + 1) 0); [|lia].
  simpl. by replace (charIdx (self st) + 1 - 1) with (charIdx (self st)) by lia.
Qed.

Lemma delete_is_right_then_backspace_witness :
  let s0 := start [] [] false (mkTty (lit "abc" ++ LEFT ++ LEFT) []) in
  let ks := [lit "a"; lit "b"; lit "c"; LEFT; LEFT] in
  steps s0 ks (after_keys ks s0) /\
  charIdx (self (after_keys ks s0)) < len (line (self (after_keys ks s0))) /\
  exists stD st1 st2,
    loop_step DELETE (with_stdin (DELETE ++ []) (after_keys ks s0)) stD /\
    loop_step RIGHT (with_stdin (RIGHT ++ BACKSPACE ++ []) (after_keys ks s0)) st1 /\
    loop_step BACKSPACE st1 st2 /\ self stD = self st2.
Proof.
  intros s0 ks.
  assert (Hsteps : steps s0 ks (after_keys ks s0)).
  { apply after_keys_steps. vm_compute. by eexists. }
  assert (Hlt : charIdx (self (after_keys ks s0)) < len (line (self (after_keys ks s0))))
    by (vm_compute; reflexivity).
  split; [exact Hsteps|]. split; [exact Hlt|].
  destruct (delete_is_right_then_backspace _ _ _ _ _ _ [] Hsteps Hlt)
    as (stD & st1 & st2 & HD & H1 & H2 & Heq & _).
  exists stD, st1, st2. by repeat split.
Defined.

(** ** What the keys print, with the debug lines off *)

Lemma key_effect_steps_fields pastLines pr dbg t ks st :
  steps (start pastLines pr dbg t) ks st ->
  debug (self st) = dbg /\ prompt (self st) = pr /\ used (self st) = true.
Proof.
  induction 1 as [|ks st1 k st2 Hsteps IH Hstep]; [done|].
  destruct (loop_step_effect _ _ _ Hstep) as (Heff & _);
    [by apply wf_lines, (wf_reached _ _ _ _ _ _ Hsteps)|].
  apply key_effect_fields in Heff as (-> & -> & ->). apply IH.
Qed.

Lemma read_body_nodebug k st : debug (self st) = false -> read_body k st = dispatch k st.
Proof.
  intros Hd. unfold read_body. unfold bind at 1 2. unfold getSelf. rewrite Hd. reflexivity.
Qed.

Lemma moveCharRight_run d st :
  moveCharRight d st =
  _moveCursorRight (charIdx (after_moveCharRight d (self st)) - charIdx (self st))
    (mkState (after_moveCharRight d (self st)) (stdin st) (stdout st)).
Proof. reflexivity. Qed.

Lemma set_charIdx_same r : set_charIdx (charIdx r) r = r.
Proof. by destruct r. Qed.

Example left_prints_motion :
  getLine (mkInput [] false) [] (mkTty (lit "a" ++ LEFT ++ LEFT ++ CR) [])
  = (Return (lit "a"), mkInput [lit "a"] false,
     mkTty [] (CR ++ lit "a" ++ CLEAR_LINE ++ "027"%char :: lit "[1D" ++ [LF]),
     mkReader [lit "a"] (lit "a") 0 0 true false []).
Proof. vm_compute. reflexivity. Qed.

(** X7.  With the debug lines off, ArrowLeft and ArrowRight do nothing but
    move the cursor: by one place, printing exactly [ESC [ 1 D] or
    [ESC [ 1 C], when there is room; not at all, and printing nothing, when
    the cursor is at the start or at the end of the line.  The line, the
    history and the active index stay as they are. *)
Theorem arrows_move_cursor_only pastLines prompt t ks st rest :
  steps (start pastLines prompt false t) ks st ->
  (stdin st = LEFT ++ rest ->
   loop_step LEFT st
     (mkState (set_charIdx (Z.max 0 (charIdx (self st) - 1)) (self st)) rest
        (stdout st ++ if charIdx (self st) =? 0 then [] else "027"%char :: lit "[1D"))) /\
  (stdin st = RIGHT ++ rest ->
   loop_step RIGHT st
     (mkState (set_charIdx (Z.min (len (line (self st))) (charIdx (self st) + 1)) (self st)) rest
        (stdout st ++
         if charIdx (self st) =? len (line (self st)) then [] else "027"%char :: lit "[1C"))).
Proof.
  intros Hsteps. pose proof (wf_reached _ _ _ _ _ _ Hsteps) as Hwf.
  destruct (key_effect_steps_fields _ _ _ _ _ _ Hsteps) as (Hd & _ & _).
  pose proof (wf_charIdx _ Hwf) as Hc.
  split; intros Hin.
  - exists (with_stdin rest st). split; [apply _getKey_known; [repeat constructor|done]|].
    split; [done|]. rewrite read_body_nodebug by done.
    change (dispatch LEFT) with (moveCharRight (-1)). rewrite moveCharRight_run.
    unfold after_moveCharRight. simpl.
    replace (_bound (charIdx (self st) + -1) (Some 0) (Some (len (line (self st)))))
      with (Z.max 0 (charIdx (self st) - 1)) by (unfold _bound; lia).
    destruct (Z.eqb_spec (charIdx (self st)) 0) as [H0|H0].
    + replace (Z.max 0 (charIdx (self st) - 1) - charIdx (self st)) with 0 by lia.
      by rewrite app_nil_r.
    + by replace (Z.max 0 (charIdx (self st) - 1) - charIdx (self st)) with (-1) by lia.
  - exists (with_stdin rest st). split; [apply _getKey_known; [repeat constructor|done]|].
    split; [done|]. rewrite read_body_nodebug by done.
    change (dispatch RIGHT) with (moveCharRight 1). rewrite moveCharRight_run.
    unfold after_moveCharRight. simpl.
    replace (_bound (charIdx (self st) + 1) (Some 0) (Some (len (line (self st)))))
      with (Z.min (len (line (self st))) (charIdx (self st) + 1)) by (unfold _bound; lia).
    destruct (Z.eqb_spec (charIdx (self st)) (len (line (self st)))) as [H0|H0].
    + replace (Z.min (len (line (self st))) (charIdx (self st) + 1) - charIdx (self st))
        with 0 by lia.
      by rewrite app_nil_r.
    + by replace (Z.min (len (line (self st))) (charIdx (self st) + 1) - charIdx (self st))
        with 1 by lia.
Qed.

Lemma arrows_move_cursor_only_witness :
  let s0 := start [] [] false (mkTty (lit "ab" ++ LEFT) []) in
  let ks := [lit "a"; lit "b"] in
  steps s0 ks (after_keys ks s0) /\ stdin (after_keys ks s0) = LEFT ++ [] /\
  loop_step LEFT (after_keys ks s0)
    (mkState (set_charIdx (Z.max 0 (charIdx (self (after_keys ks s0)) - 1))
                (self (after_keys ks s0))) []
       (stdout (after_keys ks s0) ++
        if charIdx (self (after_keys ks s0)) =? 0 then [] else "027"%char :: lit "[1D")).
Proof.
  intros s0 ks.
  assert (Hsteps : steps s0 ks (after_keys ks s0)).
  { apply after_keys_steps. vm_compute. by eexists. }
  assert (Hin : stdin (after_keys ks s0) = LEFT ++ []) by (vm_compute; reflexivity).
  split; [exact Hsteps|]. split; [exact Hin|].
  exact (proj1 (arrows_move_cursor_only _ _ _ _ _ [] Hsteps) Hin).
Defined.

Lemma doBackspace_at_start st : charIdx (self st) = 0 -> doBackspace st = (Return tt, st).
Proof. intros H. unfold doBackspace, bind, getSelf. by rewrite H. Qed.

Lemma doDelete_at_end st :
  charIdx (self st) = len (line (self st)) -> doDelete st = (Return tt, st).
Proof. intros H. unfold doDelete, bind, getSelf. by rewrite H, Z.ltb_irrefl. Qed.

Example backspace_at_start_of_recalled_line :
  run [lit "foo"] (lit "ab" ++ UP ++ LEFT ++ LEFT ++ LEFT ++ BACKSPACE ++ DOWN ++ CR)
  = (Return (lit "foo"), [lit "foo"; lit "foo"]).
Proof. vm_compute. reflexivity. Qed.

(** X8.  With the debug lines off, Backspace with the cursor at the start
    of the line, and Delete with the cursor at its end, remove nothing and
    print nothing; but like every editing key they store the buffer in the
    newest entry of the history, also when the buffer shows an older
    entry. *)
Theorem edit_key_without_effect_stores_line pastLines prompt t ks st rest k :
  steps (start pastLines prompt false t) ks st ->
  (k = BACKSPACE /\ charIdx (self st) = 0 \/
   k = DELETE /\ charIdx (self st) = len (line (self st))) ->
  stdin st = k ++ rest ->
  exists st',
    loop_step k st st' /\ stdin st' = rest /\ stdout st' = stdout st /\
    line (self st') = line (self st) /\ charIdx (self st') = charIdx (self st) /\
    lineIdx (self st') = lineIdx (self st) /\
    lines (self st') = pastLines ++ [line (self st)].
Proof.
  intros Hsteps Hk Hin. pose proof (wf_reached _ _ _ _ _ _ Hsteps) as Hwf.
  destruct (key_effect_steps_fields _ _ _ _ _ _ Hsteps) as (Hd & _ & _).
  destruct (steps_past _ _ _ _ _ _ Hsteps) as [x Hx].
  exists (mkState (after_store_line (self st)) rest (stdout st)).
  assert (Hlines : lines (after_store_line (self st)) = pastLines ++ [line (self st)]).
  { unfold after_store_line. simpl. rewrite Hx. apply insert_last_snoc. }
  repeat split; try done.
  exists (with_stdin rest st). destruct Hk as [[-> Hc]|[-> Hc]].
  - split; [by apply (_getKey_plain "127"%char)|]. split; [done|].
    rewrite read_body_nodebug by done.
    change (dispatch BACKSPACE) with (doBackspace ;; store_line). unfold bind.
    rewrite doBackspace_at_start by done. apply store_line_spec, Hwf.
  - split; [apply _getKey_known; [repeat constructor|done]|]. split; [done|].
    rewrite read_body_nodebug by done.
    change (dispatch DELETE) with (doDelete ;; store_line). unfold bind.
    rewrite doDelete_at_end by done. apply store_line_spec, Hwf.
Qed.

Lemma edit_key_without_effect_stores_line_witness :
  let s0 := start [lit "foo"] [] false (mkTty (lit "ab" ++ UP ++ DELETE) []) in
  let ks := [lit "a"; lit "b"; UP] in
  steps s0 ks (after_keys ks s0) /\
  charIdx (self (after_keys ks s0)) = len (line (self (after_keys ks s0))) /\
  stdin (after_keys ks s0) = DELETE ++ [] /\
  exists st', loop_step DELETE (after_keys ks s0) st' /\
              lines (self st') = [lit "foo"] ++ [line (self (after_keys ks s0))].
Proof.
  intros s0 ks.
  assert (Hsteps : steps s0 ks (after_keys ks s0)).
  { apply after_keys_steps. vm_compute. by eexists. }
  assert (Hc : charIdx (self (after_keys ks s0)) = len (line (self (after_keys ks s0))))
    by (vm_compute; reflexivity).
  assert (Hin : stdin (after_keys ks s0) = DELETE ++ []) by (vm_compute; reflexivity).
  split; [exact Hsteps|]. split; [exact Hc|]. split; [exact Hin|].
  destruct (edit_key_without_effect_stores_line _ _ _ _ _ [] DELETE Hsteps
              (or_intror (conj eq_refl Hc)) Hin) as (st' & Hstep & _ & _ & _ & _ & _ & Hl).
  exists st'. by split.
Defined.

(** ** The history across sessions *)

Lemma steps_stdout st0 ks st : steps st0 ks st -> wf (self st0) ->
  exists out, stdout st = stdout st0 ++ out.
Proof.
  intros Hsteps Hwf0. induction Hsteps as [|ks st1 k st2 Hsteps [o IH] (s1 & Hkey & _ & Hbody)].
  - exists []. by rewrite app_nil_r.
  - apply _getKey_Return in Hkey as (_ & _ & Hself & Hout).
    destruct (read_body_effect k s1) as (res & r' & out & Hrun & _).
    { rewrite Hself. by apply wf_lines, (steps_wf st0 ks). }
    rewrite Hrun in Hbody. injection Hbody as _ <-. simpl.
    exists (o ++ out). by rewrite Hout, IH, app_assoc.
Qed.

(** What an accepted session leaves behind. *)
Lemma getLine_Return_inv i prompt t l i' t' r' :
  getLine i prompt t = (Return l, i', t', r') ->
  i' = mkInput (Input_lines i ++ [l]) (Input_debug i) /\ line r' = l /\
  exists out, tty_out t' = tty_out t ++ prompt ++ out ++ [LF].
Proof.
  rewrite getLine_session.
  destruct (session_outcome (Input_lines i) prompt (Input_debug i) t)
    as (ks & st & res & st' & Hsteps & Hend & ->).
  intros [= -> <- <- <-].
  inversion Hend as [st1 Hkey| |]; subst. simpl.
  destruct (steps_past _ _ _ _ _ _ Hsteps) as [x Hx].
  destruct (steps_stdout _ _ _ Hsteps) as [out Hout]; [apply wf_start|].
  rewrite Hx, insert_last_snoc. repeat split; try done.
  exists out. rewrite Hout. simpl. by rewrite <- !app_assoc.
Qed.

(** X9.  When [getLine] returns a line, the history of the [Input] is the
    history from before followed by that line, the debug flag is
    unchanged, and the output is the old output, the prompt, what the keys
    made the editor print, and one newline. *)
Theorem accepted_line_is_appended i prompt t l i' t' r' :
  getLine i prompt t = (Return l, i', t', r') ->
  Input_lines i' = Input_lines i ++ [l] /\ Input_debug i' = Input_debug i /\
  exists out, tty_out t' = tty_out t ++ prompt ++ out ++ [LF].
Proof.
  intros H. apply getLine_Return_inv in H as (-> & _ & Hout). by repeat split.
Qed.

Lemma accepted_line_is_appended_witness :
  let out := getLine (mkInput [lit "foo"] false) (lit "> ") (mkTty (lit "ab" ++ UP ++ lit "x" ++ CR) []) in
  out = (Return (lit "foox"), out.1.1.2, out.1.2, out.2) /\
  Input_lines out.1.1.2 = [lit "foo"] ++ [lit "foox"].
Proof.
  intros out.
  assert (Hout : out = (Return (lit "foox"), out.1.1.2, out.1.2, out.2))
    by (vm_compute; reflexivity).
  split; [exact Hout|].
  exact (proj1 (accepted_line_is_appended _ _ _ _ _ _ _ Hout)).
Defined.

(** ArrowUp, [j] times over. *)
Lemma ups j : forall st rest,
  wf (self st) -> stdin st = concat (replicate j UP) ++ rest ->
  exists st',
    steps st (replicate j UP) st' /\
    lineIdx (self st') = Z.max 0 (lineIdx (self st) - Z.of_nat j) /\
    lines (self st') = lines (self st) /\
    ((1 <= j)%nat ->
     getitem (lines (self st)) (lineIdx (self st')) = Some (line (self st')) /\
     charIdx (self st') = len (line (self st'))) /\
    stdin st' = rest.
Proof.
  induction j as [|j IH]; intros st rest Hwf Hin.
  - exists st. pose proof (wf_lineIdx _ Hwf). repeat split; try done; try lia. constructor.
  - change (concat (replicate (S j) UP)) with (UP ++ concat (replicate j UP)) in Hin.
    rewrite <- app_assoc in Hin.
    destruct (loop_step_UP st _ Hwf Hin) as (st1 & l & Hstep & Hin1 & Hget & Hself).
    assert (Hwf1 : wf (self st1)) by by apply (loop_step_wf UP st).
    destruct (IH st1 rest Hwf1 Hin1) as (st' & Hsteps & Hidx & Hlines & Hline & Hrest).
    pose proof (wf_lineIdx _ Hwf) as Hi.
    assert (Hidx1 : lineIdx (self st1) = Z.max 0 (lineIdx (self st) - 1)).
    { rewrite Hself. simpl. unfold _bound. lia. }
    assert (Hlines1 : lines (self st1) = lines (self st)) by by rewrite Hself.
    exists st'. repeat split.
    + by apply (steps_cons UP st st1).
    + rewrite Hidx, Hidx1. lia.
    + by rewrite Hlines.
    + destruct j as [|j].
      * inversion Hsteps as [|ks ? ? ? ? ? Hks]; [|by destruct ks].
        subst st'. rewrite Hself. simpl. by rewrite <- Hget.
      * rewrite <- Hlines1. apply Hline. lia.
    + destruct j as [|j].
      * inversion Hsteps as [|ks ? ? ? ? ? Hks]; [|by destruct ks].
        subst st'. by rewrite Hself.
      * apply Hline. lia.
    + done.
Qed.

Example up_twice_of_three :
  option_map (fun st => (line (self st), lineIdx (self st)))
    (run_keys [UP; UP] (start [lit "a"; lit "b"; lit "c"] [] false (mkTty (UP ++ UP) [])))
  = Some (lit "b", 1).
Proof. vm_compute. reflexivity. Qed.

(** X10.  In a new session, [j] presses of ArrowUp show the entry [j]
    places back in the history, and the oldest entry once [j] exceeds the
    number of entries: the active index is [max 0 (n - j)] for a history of
    [n] lines, the buffer is the entry at that index with the cursor at its
    end, and the history is untouched. *)
Theorem up_walks_back_through_history pastLines prompt debug tout j rest :
  exists st,
    steps (start pastLines prompt debug (mkTty (concat (replicate j UP) ++ rest) tout))
      (replicate j UP) st /\
    lineIdx (self st) = Z.max 0 (len pastLines - Z.of_nat j) /\
    getitem (pastLines ++ [[]]) (lineIdx (self st)) = Some (line (self st)) /\
    charIdx (self st) = len (line (self st)) /\
    lines (self st) = pastLines ++ [[]] /\
    stdin st = rest.
Proof.
  set (s0 := start pastLines prompt debug (mkTty (concat (replicate j UP) ++ rest) tout)).
  destruct (ups j s0 rest) as (st & Hsteps & Hidx & Hlines & Hline & Hrest);
    [apply wf_start|done|].
  exists st. simpl in Hidx, Hlines, Hline.
  assert (Hidx' : lineIdx (self st) = Z.max 0 (len pastLines - Z.of_nat j)).
  { rewrite Hidx, len_app. unfold len. simpl. lia. }
  repeat split; try done.
  - destruct j as [|j]; [|apply Hline; lia].
    inversion Hsteps as [|ks ? ? ? ? ? Hks]; [|by destruct ks]. subst st. simpl.
    rewrite (getitem_last (pastLines ++ [[]]) []); [done|by rewrite last_snoc].
  - destruct j as [|j]; [|apply Hline; lia].
    inversion Hsteps as [|ks ? ? ? ? ? Hks]; [|by destruct ks]. by subst st.
Qed.

Lemma getitem_middle {A} (l1 l2 : list A) (x : A) : getitem (l1 ++ x :: l2) (len l1) = Some x.
Proof.
  unfold getitem, len. destruct (Z.ltb_spec (Z.of_nat (length l1)) 0); [lia|].
  rewrite Nat2Z.id. by apply list_lookup_middle.
Qed.

Example recall_previous_line :
  let '(_, i1, _, _) := getLine (mkInput [] false) (lit "> ") (mkTty (lit "ls" ++ CR) []) in
  let '(res, i2, _, _) := getLine i1 (lit "> ") (mkTty (UP ++ CR) []) in
  res = Return (lit "ls") /\ Input_lines i2 = [lit "ls"; lit "ls"].
Proof. vm_compute. by split. Qed.

(** X11.  The line one [getLine] returned is what ArrowUp brings back in
    the next one: ArrowUp and Enter return the same line again, and the
    history then holds it twice at its end. *)
Theorem previous_line_is_recalled i prompt t l i1 t1 r1 prompt2 rest out :
  getLine i prompt t = (Return l, i1, t1, r1) ->
  exists out' r',
    getLine i1 prompt2 (mkTty (UP ++ CR ++ rest) out) =
    (Return l, mkInput (Input_lines i ++ [l; l]) (Input_debug i), mkTty rest out', r').
Proof.
  intros H. apply getLine_Return_inv in H as (-> & _ & _).
  rewrite getLine_session. cbn [Input_lines Input_debug].
  set (past := Input_lines i ++ [l]).
  set (s0 := start past prompt2 (Input_debug i) (mkTty (UP ++ CR ++ rest) out)).
  destruct (loop_step_UP s0 (CR ++ rest)) as (st1 & l1 & Hstep & Hin1 & Hget & Hself);
    [apply wf_start|done|].
  assert (l1 = l) as ->.
  { simpl in Hget.
    assert (Hb : _bound (len (past ++ [[]]) - 1 + -1) (Some 0) (Some (len (past ++ [[]]) - 1))
                 = len (Input_lines i)).
    { unfold past. rewrite !len_app. unfold _bound, len. simpl. lia. }
    rewrite Hb in Hget. unfold past in Hget. rewrite <- app_assoc in Hget.
    simpl in Hget. rewrite getitem_middle in Hget. by injection Hget. }
  assert (Hsteps : steps s0 [UP] st1) by (apply (steps_snoc s0 [] s0); [constructor|done]).
  assert (Hkey : _getKey st1 = (Return CR, with_stdin rest st1))
    by by apply (_getKey_plain "013"%char).
  rewrite (session_run _ _ _ _ _ st1 _ _ Hsteps (end_accept st1 _ Hkey)).
  simpl. rewrite Hself. simpl.
  assert (Hins : <[pred (length (past ++ [[]])) := l]> (past ++ [[]]) = Input_lines i ++ [l; l]).
  { etrans; [apply insert_last_snoc|]. unfold past. by rewrite <- app_assoc. }
  eexists _, _. do 2 f_equal. f_equal. by f_equal.
Qed.

Lemma previous_line_is_recalled_witness :
  let out := getLine (mkInput [] false) (lit "> ") (mkTty (lit "ls" ++ CR) []) in
  out = (Return (lit "ls"), out.1.1.2, out.1.2, out.2) /\
  exists out' r',
    getLine out.1.1.2 (lit "$ ") (mkTty (UP ++ CR ++ lit "x") []) =
    (Return (lit "ls"), mkInput ([] ++ [lit "ls"; lit "ls"]) false, mkTty (lit "x") out', r').
Proof.
  intros out.
  assert (Hout : out = (Return (lit "ls"), out.1.1.2, out.1.2, out.2))
    by (vm_compute; reflexivity).
  split; [exact Hout|].
  exact (previous_line_is_recalled _ _ _ _ _ _ _ (lit "$ ") (lit "x") [] Hout).
Defined.

(** ** [main] *)

(** [for _ in range(n): input.getLine("> ")]: an exception ends the loop,
    and so does a session that waits for input that does not come. *)
Fixpoint getLine_loop (n : nat) (input : Input) (t : tty) : result unit * Input * tty :=
  match n with
  | O => (Return tt, input, t)
  | S n' =>
      match getLine input (lit "> ") t with
      | (Return _, input', t', _) => getLine_loop n' input' t'
      | (Raise e, input', t', _) => (Raise e, input', t')
      | (Blocked, input', t', _) => (Blocked, input', t')
      | (OutOfGas, input', t', _) => (OutOfGas, input', t')
      end
  end.

(** [main()], with [argv] for [sys.argv]. *)
Definition main (argv : list str) (t : tty) : result unit * Input * tty :=
  let debug :=
    (len argv >? 1) &&
    match getitem argv 1 with
    | Some a => bool_decide (a = lit "debug")
    | None => false
    end in
  let input := mkInput [] debug in
  getLine_loop 3 input t.

Example main_three_lines :
  main [lit "input.py"] (mkTty (lit "a" ++ CR ++ lit "b" ++ CR ++ UP ++ UP ++ CR ++ lit "rest") [])
  = (Return tt, mkInput [lit "a"; lit "b"; lit "a"] false,
     mkTty (lit "rest")
       (lit "> " ++ CR ++ lit "> a" ++ CLEAR_LINE ++ [LF] ++
        lit "> " ++ CR ++ lit "> b" ++ CLEAR_LINE ++ [LF] ++
        lit "> " ++ CR ++ lit "> b" ++ CLEAR_LINE ++ CR ++ lit "> a" ++ CLEAR_LINE ++ [LF])).
Proof. vm_compute. reflexivity. Qed.

Example main_interrupted :
  main [lit "input.py"] (mkTty (lit "a" ++ CR ++ lit "b" ++ INTERRUPT ++ lit "c" ++ CR) [])
  = (Raise KeyboardInterrupt, mkInput [lit "a"; lit "b"] false,
     mkTty (lit "c" ++ CR)
       (lit "> " ++ CR ++ lit "> a" ++ CLEAR_LINE ++ [LF] ++
        lit "> " ++ CR ++ lit "> b" ++ CLEAR_LINE)).
Proof. vm_compute. reflexivity. Qed.

Lemma getLine_loop_typed n input w rest out :
  Forall plain w ->
  exists out',
    getLine_loop (S n) input (mkTty (w ++ CR ++ rest) out) =
    getLine_loop n (mkInput (Input_lines input ++ [w]) (Input_debug input)) (mkTty rest out').
Proof.
  intros Hw. destruct (getLine_typed input (lit "> ") w rest out Hw) as (out' & r' & Hrun).
  exists out'. cbn [getLine_loop]. by rewrite Hrun.
Qed.

(** X12.  [main] reads three lines: given three lines of plain characters,
    each ended by a carriage return, it returns with exactly these three
    lines as the history of its [Input], in order, and leaves what follows
    the third carriage return unread. *)
Theorem main_reads_three_lines argv w1 w2 w3 rest out :
  Forall plain w1 -> Forall plain w2 -> Forall plain w3 ->
  exists dbg out',
    main argv (mkTty (w1 ++ CR ++ w2 ++ CR ++ w3 ++ CR ++ rest) out) =
    (Return tt, mkInput [w1; w2; w3] dbg, mkTty rest out').
Proof.
  intros H1 H2 H3. unfold main.
  set (dbg := (len argv >? 1) && _). exists dbg.
  destruct (getLine_loop_typed 2 (mkInput [] dbg) w1 (w2 ++ CR ++ w3 ++ CR ++ rest) out H1)
    as (o1 & ->). cbn [Input_lines Input_debug app].
  destruct (getLine_loop_typed 1 (mkInput [w1] dbg) w2 (w3 ++ CR ++ rest) o1 H2)
    as (o2 & ->). cbn [Input_lines Input_debug app].
  destruct (getLine_loop_typed 0 (mkInput [w1; w2] dbg) w3 rest o2 H3) as (o3 & Hlast).
  exists o3. etrans; [exact Hlast|reflexivity].
Qed.

Lemma main_reads_three_lines_witness :
  Forall plain (lit "a") /\ Forall plain (lit "bc") /\ Forall plain [] /\
  exists dbg out',
    main [lit "input.py"; lit "debug"]
      (mkTty (lit "a" ++ CR ++ lit "bc" ++ CR ++ [] ++ CR ++ lit "x") []) =
    (Return tt, mkInput [lit "a"; lit "bc"; []] dbg, mkTty (lit "x") out').
Proof.
  assert (H1 : Forall plain (lit "a")) by (repeat constructor; done).
  assert (H2 : Forall plain (lit "bc")) by (repeat constructor; done).
  assert (H3 : Forall plain (@nil ascii)) by constructor.
  split; [exact H1|]. split; [exact H2|]. split; [exact H3|].
  exact (main_reads_three_lines [lit "input.py"; lit "debug"] _ _ _ (lit "x") [] H1 H2 H3).
Defined.

(** ** The redraw *)

Example redraw_in_the_middle :
  _resetLineAndCursor (mkState (mkReader [lit "abc"] (lit "abc") 0 1 true false (lit "> ")) [] [])
  = (Return tt,
     mkState (mkReader [lit "abc"] (lit "abc") 0 1 true false (lit "> ")) []
       (CR ++ lit "> abc" ++ CLEAR_LINE ++ "027"%char :: lit "[2D")).
Proof. vm_compute. reflexivity. Qed.

(** X13.  A redraw with the cursor within the line prints the carriage
    return, the prompt, the line and the clear-to-end-of-line sequence, and
    then moves the cursor back by the number of characters after it:
    [ESC [ N D] with [N] the decimal numeral of [len(line) - charIdx], or
    nothing when the cursor is at the end.  It never prints a motion to the
    right, and changes nothing but the output. *)
Theorem redraw_output st :
  charIdx (self st) <= len (line (self st)) ->
  exists motion,
    _resetLineAndCursor st =
      (Return tt,
       with_stdout (stdout st ++ CR ++ (prompt (self st) ++ line (self st)) ++ CLEAR_LINE ++ motion)
         st) /\
    (charIdx (self st) = len (line (self st)) -> motion = []) /\
    (charIdx (self st) < len (line (self st)) ->
     exists N, decimal_numeral N (len (line (self st)) - charIdx (self st)) /\
               motion = "027"%char :: "["%char :: N ++ ["D"%char]).
Proof.
  intros Hc. unfold _resetLineAndCursor, bind, getSelf, _resetLine, _moveCursorRight, print.
  simpl.
  destruct (charIdx (self st) - len (line (self st))) as [|p|p] eqn:Hd; [|lia|]; simpl.
  - exists []. unfold ret, with_stdout. simpl.
    split; [reflexivity|]. split; [done|intros; lia].
  - exists ("027"%char :: "["%char :: str_of_int (Z.pos p) ++ ["D"%char]).
    unfold with_stdout. simpl. split.
    { do 2 f_equal. rewrite <- app_assoc. f_equal. simpl. f_equal.
      by rewrite <- !app_assoc. }
    split; [intros; lia|]. intros _. exists (str_of_int (Z.pos p)).
    replace (len (line (self st)) - charIdx (self st)) with (Z.pos p) by lia.
    split; [apply str_of_int_pos|done].
Qed.

Lemma redraw_output_witness :
  let st := mkState (mkReader [lit "abc"] (lit "abc") 0 1 true false (lit "> ")) [] [] in
  charIdx (self st) <= len (line (self st)) /\
  exists motion,
    _resetLineAndCursor st =
      (Return tt,
       with_stdout (stdout st ++ CR ++ (prompt (self st) ++ line (self st)) ++ CLEAR_LINE ++ motion)
         st).
Proof.
  intros st.
  assert (Hc : charIdx (self st) <= len (line (self st))) by (vm_compute; discriminate).
  split; [exact Hc|].
  destruct (redraw_output st Hc) as (motion & Hrun & _).
  by exists motion.
Defined.

(** ** Escape sequences the editor does not know *)

Lemma key_effect_unknown k r res r' :
  escape_shape k -> k ∉ _arrowKeys -> k <> DELETE ->
  key_effect k r res r' ->
  res = Raise (Exception (lit "unknown ANSI escape: " ++ join (lit " ") (map hex_of_ord k))) /\
  r' = r.
Proof.
  intros Hshape Harrow Hdel.
  inversion 1 as [l ?|l ?|?|?|?|?|?|?|?|k' Heq|c' k' Heq Hc]; subst; try done;
    try (by destruct Harrow; repeat constructor);
    try (by inversion Hshape).
  by inversion Hshape; subst.
Qed.

Example home_key_ends_the_session :
  run [] (lit "ab" ++ "027"%char :: lit "[H" ++ CR)
  = (Raise (Exception (lit "unknown ANSI escape: 0x1b 0x5b 0x48")), [lit "ab"]).
Proof. vm_compute. reflexivity. Qed.

(** X14.  Every escape sequence that is well formed and is none of the
    five the editor knows (the four arrows and Delete) ends the session:
    [read] raises [Exception] with the message "unknown ANSI escape: "
    followed by the codes of its characters, the reader stays as the keys
    before left it, and the characters after the sequence are not read. *)
Theorem unknown_escape_raises pastLines prompt debug t ks st k rest :
  steps (start pastLines prompt debug t) ks st ->
  escape_shape k -> k ∉ _arrowKeys -> k <> DELETE ->
  stdin st = k ++ rest ->
  exists st',
    session pastLines prompt debug t =
      (Raise (Exception (lit "unknown ANSI escape: " ++ join (lit " ") (map hex_of_ord k))), st') /\
    self st' = self st /\ stdin st' = rest.
Proof.
  intros Hsteps Hshape Harrow Hdel Hin. pose proof (wf_reached _ _ _ _ _ _ Hsteps) as Hwf.
  pose proof (_getKey_shape st k rest Hshape Hin) as Hkey.
  destruct (read_body_effect k (with_stdin rest st)) as (res & r' & out & Hbody & Heff);
    [apply Hwf|].
  apply key_effect_unknown in Heff as [-> ->]; try done.
  eexists. split.
  { apply (session_run _ _ _ _ ks st); [done|].
    eapply end_raise; [exact Hkey| |exact Hbody].
    intros ->. inversion Hshape. }
  by split.
Qed.

Lemma unknown_escape_raises_witness :
  let s0 := start [] [] false (mkTty (lit "ab" ++ "027"%char :: lit "[H" ++ lit "c") []) in
  let ks := [lit "a"; lit "b"] in
  let k := "027"%char :: lit "[H" in
  steps s0 ks (after_keys ks s0) /\ escape_shape k /\ (k ∉ _arrowKeys) /\ k <> DELETE /\
  stdin (after_keys ks s0) = k ++ lit "c" /\
  exists st',
    session [] [] false (mkTty (lit "ab" ++ "027"%char :: lit "[H" ++ lit "c") []) =
      (Raise (Exception (lit "unknown ANSI escape: " ++ join (lit " ") (map hex_of_ord k))), st').
Proof.
  intros s0 ks k.
  assert (Hsteps : steps s0 ks (after_keys ks s0)).
  { apply after_keys_steps. vm_compute. by eexists. }
  assert (Hshape : escape_shape k).
  { apply (shape_csi [] [] "H"%char); by repeat constructor. }
  assert (Harrow : k ∉ _arrowKeys).
  { intros H. unfold _arrowKeys in H.
    repeat (apply elem_of_cons in H as [H|H]; [done|]). by apply elem_of_nil in H. }
  assert (Hdel : k <> DELETE) by done.
  assert (Hin : stdin (after_keys ks s0) = k ++ lit "c") by (vm_compute; reflexivity).
  split; [exact Hsteps|]. split; [exact Hshape|]. split; [exact Harrow|].
  split; [exact Hdel|]. split; [exact Hin|].
  destruct (unknown_escape_raises _ _ _ _ _ _ _ _ Hsteps Hshape Harrow Hdel Hin)
    as (st' & Hrun & _).
  by exists st'.
Defined.

(** ** The debug flag *)

Definition set_debug (v : bool) (r : SingleLineReader) : SingleLineReader :=
  mkReader (lines r) (line r) (lineIdx r) (charIdx r) (used r) v (prompt r).

(** What a key does to the reader does not depend on the debug flag. *)
Lemma key_effect_set_debug b k r res r' :
  key_effect k r res r' -> key_effect k (set_debug b r) res (set_debug b r').
Proof.
  assert (Hbs : set_debug b (after_store_line (after_doBackspace r))
                = after_store_line (after_doBackspace (set_debug b r))).
  { unfold after_doBackspace. simpl. by case_match. }
  assert (Hdel : set_debug b (after_store_line (after_doDelete r))
                 = after_store_line (after_doDelete (set_debug b r))).
  { unfold after_doDelete. simpl. by case_match. }
  destruct 1 as [l ? Hget|l ? Hget|?|?|?|?|?|?|?|k' ? ? ?|c k' ? ? ? ? ?].
  - by apply (effect_up k (set_debug b r) l).
  - by apply (effect_down k (set_debug b r) l).
  - by apply (effect_left k (set_debug b r)).
  - by apply (effect_right k (set_debug b r)).
  - rewrite Hbs. by constructor.
  - rewrite Hdel. by constructor.
  - by constructor.
  - by constructor.
  - by constructor.
  - by apply (effect_escape k (set_debug b r) k').
  - by apply (effect_insert k (set_debug b r) c k').
Qed.

(** A key has one effect only. *)
Lemma key_effect_fun k r res1 r1 res2 r2 :
  key_effect k r res1 r1 -> key_effect k r res2 r2 -> res1 = res2 /\ r1 = r2.
Proof.
  destruct 1; inversion 1; subst; try done; try (split; congruence);
    try (exfalso;
         match goal with
         | H : _ ∉ _arrowKeys |- _ => apply H; by repeat constructor
         end);
    try (exfalso;
         match goal with
         | H : _ :: _ = _ :: _ |- _ => injection H as ? ?; subst; done
         end);
    try (exfalso;
         match goal with
         | H : _ = _ :: _, H' : _ ∉ _arrowKeys |- _ =>
             rewrite <- H in H'; apply H'; by repeat constructor
         end);
    try (exfalso;
         match goal with
         | H : _ = _ :: _ |- _ => injection H as ? ?; subst; done
         end);
    try (exfalso;
         match goal with
         | H : _ :: _ = _, H' : _ ∉ _arrowKeys |- _ =>
             rewrite H in H'; apply H'; by repeat constructor
         end);
    try (exfalso;
         match goal with
         | H : _ :: _ = _ |- _ => injection H as ? ?; subst; done
         end).
Qed.

(** What the decoder returns, and what it leaves in the input, depends on
    the input only. *)
Lemma _getKey_same_stdin s1 s2 res s1' :
  stdin s2 = stdin s1 -> _getKey s1 = (res, s1') ->
  _getKey s2 = (res, with_stdin (stdin s1') s2).
Proof.
  intros Hin Hrun.
  assert (Hkey : forall s k s' sb, _getKey s = (Return k, s') -> stdin sb = stdin s ->
            _getKey sb = (Return k, with_stdin (stdin s') sb)).
  { intros s k s' sb Hk Hsb. pose proof (_getKey_returns_key _ _ _ Hk) as Hiskey.
    apply _getKey_Return in Hk as (_ & Hs & _ & _). rewrite Hs in Hsb.
    destruct Hiskey as [(c & -> & Hc)|Hshape].
    - apply _getKey_plain; [done|]. intros [= ->]. done.
    - by apply _getKey_shape. }
  destruct (_getKey_inv s1) as [(k & rest & _ & _ & Hk1)|[rest Hb1]].
  - rewrite Hk1 in Hrun. injection Hrun as <- <-. by apply (Hkey s1).
  - rewrite Hb1 in Hrun. injection Hrun as <- <-.
    rewrite (_getKey_Blocked_stdin _ _ Hb1).
    destruct (_getKey_inv s2) as [(k & rest2 & _ & _ & Hk2)|[rest2 Hb2]].
    + apply (Hkey s2 k _ s1) in Hk2; [|done]. by rewrite Hb1 in Hk2.
    + pose proof (_getKey_Blocked_stdin _ _ Hb2) as Hnil. simpl in Hnil. by subst rest2.
Qed.

(** Two states of the loop that differ in the debug flag and in what was
    printed, at most. *)
Definition same_but_debug (s1 s2 : state) : Prop :=
  self s2 = set_debug false (self s1) /\ stdin s2 = stdin s1.

Lemma body_same_but_debug k s1 s2 res s1' :
  read_body k s1 = (res, s1') -> lines (self s1) <> [] -> same_but_debug s1 s2 ->
  exists s2', read_body k s2 = (res, s2') /\ same_but_debug s1' s2'.
Proof.
  intros Hbody Hl [Hself Hin].
  destruct (read_body_effect k s1 Hl) as (res1 & r1 & o1 & Hrun1 & Heff1).
  rewrite Hrun1 in Hbody. injection Hbody as -> <-.
  destruct (read_body_effect k s2) as (res2 & r2 & o2 & Hrun2 & Heff2); [by rewrite Hself|].
  rewrite Hself in Heff2.
  destruct (key_effect_fun _ _ _ _ _ _ (key_effect_set_debug false _ _ _ _ Heff1) Heff2)
    as [<- <-].
  eexists. split; [exact Hrun2|]. by split.
Qed.

Lemma step_same_but_debug k s1 s1' s2 :
  loop_step k s1 s1' -> lines (self s1) <> [] -> same_but_debug s1 s2 ->
  exists s2', loop_step k s2 s2' /\ same_but_debug s1' s2'.
Proof.
  intros (sa & Hkey & Hcr & Hbody) Hl [Hself Hin].
  pose proof (_getKey_same_stdin s1 s2 _ _ Hin Hkey) as Hkey2.
  apply _getKey_Return in Hkey as (_ & _ & Hsa & _).
  destruct (body_same_but_debug k sa (with_stdin (stdin sa) s2) _ _ Hbody) as (s2' & Hb2 & HR);
    [by rewrite Hsa|split; [by rewrite Hsa|done]|].
  exists s2'. split; [by exists (with_stdin (stdin sa) s2)|done].
Qed.

Lemma end_same_but_debug s1 res s1' s2 :
  loop_end s1 res s1' -> lines (self s1) <> [] -> same_but_debug s1 s2 ->
  exists s2', loop_end s2 res s2' /\ same_but_debug s1' s2'.
Proof.
  intros Hend Hl [Hself Hin].
  destruct Hend as [sa Hkey|k sa e s1' Hkey Hcr Hbody|sa Hkey];
    pose proof (_getKey_same_stdin s1 s2 _ _ Hin Hkey) as Hkey2.
  - replace (line (self s1)) with (line (self s2)) by by rewrite Hself.
    eexists. split; [by eapply end_accept|]. split; simpl; [by rewrite Hself|done].
  - apply _getKey_Return in Hkey as (_ & _ & Hsa & _).
    destruct (body_same_but_debug k sa (with_stdin (stdin sa) s2) _ _ Hbody) as (s2' & Hb2 & HR);
      [by rewrite Hsa|split; [by rewrite Hsa|done]|].
    exists s2'. split; [by eapply end_raise|done].
  - eexists. split; [by eapply end_blocked|].
    apply _getKey_Blocked in Hkey as [Hsa _]. split; simpl; [by rewrite Hsa|done].
Qed.

Lemma steps_same_but_debug s1 ks s1' s2 :
  steps s1 ks s1' -> wf (self s1) -> same_but_debug s1 s2 ->
  exists s2', steps s2 ks s2' /\ same_but_debug s1' s2'.
Proof.
  intros Hsteps Hwf HR. induction Hsteps as [|ks sa k sb Hsteps (s2a & Hs2 & HRa) Hstep].
  - exists s2. split; [constructor|done].
  - destruct (step_same_but_debug k sa sb s2a Hstep) as (s2b & Hstep2 & HRb);
      [by apply wf_lines, (steps_wf s1 ks)|done|].
    exists s2b. split; [by eapply steps_snoc|done].
Qed.

Example debug_prints_codes :
  getLine (mkInput [] true) [] (mkTty (lit "a" ++ CR) [])
  = (Return (lit "a"), mkInput [lit "a"] true,
     mkTty [] (CR ++ CLEAR_LINE ++ lit "0x61" ++ [LF] ++ CR ++ lit "a" ++ CLEAR_LINE ++ [LF]),
     mkReader [lit "a"] (lit "a") 0 1 true true []).
Proof. vm_compute. reflexivity. Qed.

(** X15.  The debug flag changes what is printed and nothing else: with
    the same history, prompt and input, a session with the flag on and one
    with the flag off come to the same result (the same line returned, the
    same exception raised), leave the same reader but for the flag, and
    take the same characters from the input. *)
Theorem debug_changes_output_only pastLines prompt t :
  let on := session pastLines prompt true t in
  let off := session pastLines prompt false t in
  fst off = fst on /\
  self (snd off) = set_debug false (self (snd on)) /\
  stdin (snd off) = stdin (snd on).
Proof.
  destruct (session_outcome pastLines prompt true t) as (ks & s1 & res & s1' & Hsteps & Hend & Hon).
  destruct (steps_same_but_debug _ ks s1 (start pastLines prompt false t) Hsteps)
    as (s2 & Hsteps2 & HR); [apply wf_start|by split|].
  destruct (end_same_but_debug s1 res s1' s2 Hend) as (s2' & Hend2 & [Hself Hin]);
    [by apply wf_lines, (wf_reached _ _ _ _ _ _ Hsteps)|done|].
  simpl. rewrite Hon, (session_run _ _ _ _ ks s2 res s2' Hsteps2 Hend2). by repeat split.
Qed.

(** ** The debug line *)

(** Reading back what [_printHex] prints: the value of a lower-case
    hexadecimal digit, of a numeral, and the character of a token ["0x.."]
    that has no leading zero. *)
Definition hex_digit_value (c : ascii) : option N :=
  let n := N_of_ascii c in
  if ((48 <=? n) && (n <=? 57))%N then Some (n - 48)%N
  else if ((97 <=? n) && (n <=? 102))%N then Some (n - 87)%N
  else None.

Fixpoint read_hex (acc : N) (ds : str) : option N :=
  match ds with
  | [] => Some acc
  | c :: ds' =>
      match hex_digit_value c with
      | Some d => read_hex (16 * acc + d)%N ds'
      | None => None
      end
  end.

Definition parse_hex_token (tok : str) : option ascii :=
  match tok with
  | "0"%char :: "x"%char :: d :: ds =>
      if Ascii.eqb d "0" && negb (bool_decide (ds = [])) then None
      else match read_hex 0 (d :: ds) with
           | Some n => if (n <? 256)%N then Some (ascii_of_N n) else None
           | None => None
           end
  | _ => None
  end.

(** The texts between the occurrences of [sep] in [s], [cur] being what
    was read of the current one. *)
Fixpoint split_on (sep : ascii) (cur : str) (s : str) : list str :=
  match s with
  | [] => [cur]
  | c :: s' =>
      if Ascii.eqb c sep then cur :: split_on sep [] s'
      else split_on sep (cur ++ [c]) s'
  end.

Fixpoint parse_tokens (toks : list str) : option str :=
  match toks with
  | [] => Some []
  | tok :: toks' =>
      match parse_hex_token tok, parse_tokens toks' with
      | Some c, Some s => Some (c :: s)
      | _, _ => None
      end
  end.

Definition parse_hex_dump (dump : str) : option str :=
  parse_tokens (split_on " " [] dump).

Lemma parse_hex_of_ord c : parse_hex_token (hex_of_ord c) = Some c.
Proof. destruct c as [[] [] [] [] [] [] [] []]; vm_compute; reflexivity. Qed.

Lemma hex_of_ord_no_space c : forallb (fun x => negb (Ascii.eqb x " ")) (hex_of_ord c) = true.
Proof. destruct c as [[] [] [] [] [] [] [] []]; vm_compute; reflexivity. Qed.

Lemma split_on_token sep t : forall cur,
  forallb (fun x => negb (Ascii.eqb x sep)) t = true ->
  (split_on sep cur t = [cur ++ t]) /\
  (forall rest, split_on sep cur (t ++ sep :: rest) = (cur ++ t) :: split_on sep [] rest).
Proof.
  induction t as [|c t IH]; intros cur Ht; simpl.
  - rewrite app_nil_r, Ascii.eqb_refl. done.
  - simpl in Ht. apply andb_true_iff in Ht as [Hc Ht].
    apply negb_true_iff in Hc. rewrite Hc.
    destruct (IH (cur ++ [c]) Ht) as [H1 H2]. rewrite <- !app_assoc in *. by split.
Qed.

Lemma split_on_join ts :
  ts <> [] -> Forall (fun t => forallb (fun x => negb (Ascii.eqb x " ")) t = true) ts ->
  split_on " " [] (join (lit " ") ts) = ts.
Proof.
  induction ts as [|t ts IH]; [done|]. intros _ Hts.
  apply Forall_cons in Hts as [Ht Hts]. destruct ts as [|t' ts].
  - simpl. by apply (split_on_token " " t []).
  - change (join (lit " ") (t :: t' :: ts)) with (t ++ " "%char :: join (lit " ") (t' :: ts)).
    rewrite (proj2 (split_on_token " " t [] Ht)). simpl app. f_equal. by apply IH.
Qed.

Lemma parse_hex_tokens k : parse_tokens (map hex_of_ord k) = Some k.
Proof.
  induction k as [|c k IH]; [done|].
  cbn [map parse_tokens]. by rewrite parse_hex_of_ord, IH.
Qed.

Example hex_dump_of_delete :
  join (lit " ") (map hex_of_ord DELETE) = lit "0x1b 0x5b 0x33 0x7e".
Proof. vm_compute. reflexivity. Qed.

(** X16.  The debug line of a key determines the key: [_printHex] prints,
    for a key that is not empty, one line from which the characters of the
    key can be read back, each as a token [0x] and a lower-case hexadecimal
    numeral without leading zero, the tokens separated by single spaces.
    It changes nothing but the output. *)
Theorem printHex_round_trip k st :
  k <> [] ->
  exists dump,
    _printHex k st = (Return tt, with_stdout (stdout st ++ dump ++ [LF]) st) /\
    parse_hex_dump dump = Some k.
Proof.
  intros Hk. exists (join (lit " ") (map hex_of_ord k)). split; [reflexivity|].
  unfold parse_hex_dump. rewrite split_on_join.
  - apply parse_hex_tokens.
  - by destruct k.
  - apply Forall_map, Forall_forall. intros c _. apply hex_of_ord_no_space.
Qed.

Lemma printHex_round_trip_witness :
  let st := mkState (init [] [] true) [] [] in
  UP <> [] /\
  exists dump,
    _printHex UP st = (Return tt, with_stdout (stdout st ++ dump ++ [LF]) st) /\
    parse_hex_dump dump = Some UP.
Proof.
  intros st.
  assert (Hk : UP <> []) by done.
  split; [exact Hk|]. exact (printHex_round_trip UP st Hk).
Defined.
